(** * Gan-Cube-App: the move decoder, the notation normaliser and the
      layer-rotation engine, embedded from the JavaScript sources.

    Sources embedded here:
    - the cube-state module (getCubeNotation),
    - src_bluetooth_gan_Version2.js (parseGanNotification),
    - the Cube3D component (createCube, parseMoveNotation, getAffectedCubies,
      updateCubiePosition, animateMove, executeMove, resetCube).

    JavaScript strings are sequences of UTF-16 code units; they are modelled
    as [list N].  Notification payloads are byte sequences ([list byte]).
    Grid coordinates are JavaScript numbers holding small integers; they are
    modelled in [Z]. *)

From Stdlib Require Import List NArith ZArith Bool Lia String Ascii.
From Stdlib Require Import Strings.Byte.
From Stdlib Require Import Permutation FinFun.
Import ListNotations.

(* ================================================================== *)
(** ** JavaScript strings *)
(* ================================================================== *)

Module JS.

Definition jsstring := list N.

(** An ASCII literal as a JavaScript string. *)
Definition str (s : string) : jsstring :=
  map N_of_ascii (list_ascii_of_string s).

Definition ch (a : ascii) : N := N_of_ascii a.

(** Membership of a code unit in a bracket class written as a literal. *)
Definition inClass (cls : string) (c : N) : bool :=
  existsb (N.eqb c) (str cls).

(** ECMAScript WhiteSpace and LineTerminator code points: what
    [String.prototype.trim] strips and what [\s] matches. *)
Definition isWhiteSpace (c : N) : bool :=
  ((c =? 0x09) || (c =? 0x0A) || (c =? 0x0B) || (c =? 0x0C) || (c =? 0x0D)
   || (c =? 0x20) || (c =? 0xA0) || (c =? 0x1680)
   || ((0x2000 <=? c) && (c <=? 0x200A))
   || (c =? 0x2028) || (c =? 0x2029) || (c =? 0x202F) || (c =? 0x205F)
   || (c =? 0x3000) || (c =? 0xFEFF))%N.

Fixpoint trimStart (s : jsstring) : jsstring :=
  match s with
  | [] => []
  | c :: r => if isWhiteSpace c then trimStart r else s
  end.

Definition trimEnd (s : jsstring) : jsstring := rev (trimStart (rev s)).

(** [s.trim()] *)
Definition trim (s : jsstring) : jsstring := trimEnd (trimStart s).

(** [c.toUpperCase()] on the Basic Latin block, the only block the callers
    below reach it with (the face class of the notation pattern). *)
Definition toUpperCase (c : N) : N :=
  if ((97 <=? c) && (c <=? 122))%N then (c - 32)%N else c.

(** A value handed to a function that tests [typeof token]. *)
Inductive jsvalue :=
| JSString (s : jsstring)
| JSNotString.

End JS.

(* ================================================================== *)
(** ** Cube-state module: the notation normaliser *)
(* ================================================================== *)

Module CubeState.
Import JS.

(** [/^[URFDLBurfdlb][2']?$/.test(s)] *)
Definition matchesNotation (s : jsstring) : bool :=
  match s with
  | [f] => inClass "URFDLBurfdlb" f
  | [f; m] => inClass "URFDLBurfdlb" f && inClass "2'" m
  | _ => false
  end.

(** [getCubeNotation(token)] *)
Definition getCubeNotation (token : jsvalue) : jsstring :=
  match token with
  | JSNotString => []
  | JSString t =>
      let clean := trim t in
      if matchesNotation clean then
        match clean with
        | face :: suffix => toUpperCase face :: suffix
        | [] => []
        end
      else clean
  end.

(** *** Vocabulary of the facts below *)

(** The canonical rendering of a matching token, in the words of the
    design: the face letter in upper case, then the modifier as given. *)
Definition canonical (s : jsstring) : jsstring :=
  match s with
  | face :: modifier => toUpperCase face :: modifier
  | [] => []
  end.

(** The wire format [^[URFDLB]['2]?$]. *)
Definition matchesCanonical (s : jsstring) : bool :=
  match s with
  | [f] => inClass "URFDLB" f
  | [f; m] => inClass "URFDLB" f && inClass "'2" m
  | _ => false
  end.

End CubeState.

(* ================================================================== *)
(** ** Bluetooth helper: the notification decoder *)
(* ================================================================== *)

Module Gan.
Import JS.

(** *** [new TextDecoder("utf-8").decode(dataView)]

    The platform decoder, after the Encoding Standard's UTF-8 decoder in
    replacement (non-fatal) mode: a malformed sequence yields U+FFFD and the
    offending byte is looked at again; then a leading byte-order mark is
    dropped and the code points are written as UTF-16 code units. *)

Record utf8 := {
  codePoint : N;
  bytesSeen : N;
  bytesNeeded : N;
  lowerBoundary : N;
  upperBoundary : N
}.

Definition utf8Init : utf8 :=
  {| codePoint := 0; bytesSeen := 0; bytesNeeded := 0;
     lowerBoundary := 0x80; upperBoundary := 0xBF |}.

Definition between (lo hi b : N) : bool := ((lo <=? b) && (b <=? hi))%N.

(** A byte met while no sequence is open. *)
Definition utf8Lead (b : N) : list N * utf8 :=
  if between 0x00 0x7F b then ([b], utf8Init)
  else if between 0xC2 0xDF b then
    ([], {| codePoint := N.land b 0x1F; bytesSeen := 0; bytesNeeded := 1;
            lowerBoundary := 0x80; upperBoundary := 0xBF |})
  else if between 0xE0 0xEF b then
    ([], {| codePoint := N.land b 0x0F; bytesSeen := 0; bytesNeeded := 2;
            lowerBoundary := if (b =? 0xE0)%N then 0xA0 else 0x80;
            upperBoundary := if (b =? 0xED)%N then 0x9F else 0xBF |})
  else if between 0xF0 0xF4 b then
    ([], {| codePoint := N.land b 0x07; bytesSeen := 0; bytesNeeded := 3;
            lowerBoundary := if (b =? 0xF0)%N then 0x90 else 0x80;
            upperBoundary := if (b =? 0xF4)%N then 0x8F else 0xBF |})
  else ([0xFFFD%N], utf8Init).

Definition utf8Byte (st : utf8) (b : N) : list N * utf8 :=
  if (bytesNeeded st =? 0)%N then utf8Lead b
  else if negb (between (lowerBoundary st) (upperBoundary st) b) then
    let (out, st') := utf8Lead b in (0xFFFD%N :: out, st')
  else
    let cp := N.lor (N.shiftl (codePoint st) 6) (N.land b 0x3F) in
    let seen := (bytesSeen st + 1)%N in
    if (seen =? bytesNeeded st)%N then ([cp], utf8Init)
    else ([], {| codePoint := cp; bytesSeen := seen;
                 bytesNeeded := bytesNeeded st;
                 lowerBoundary := 0x80; upperBoundary := 0xBF |}).

Fixpoint utf8Run (st : utf8) (bytes : list N) : list N :=
  match bytes with
  | [] => if (bytesNeeded st =? 0)%N then [] else [0xFFFD%N]
  | b :: rest => let (out, st') := utf8Byte st b in out ++ utf8Run st' rest
  end.

Definition dropBOM (cps : list N) : list N :=
  match cps with
  | c :: rest => if (c =? 0xFEFF)%N then rest else cps
  | [] => []
  end.

Definition utf16 (cp : N) : list N :=
  if (cp <? 0x10000)%N then [cp]
  else [(0xD800 + N.shiftr (cp - 0x10000) 10)%N;
        (0xDC00 + N.land (cp - 0x10000) 0x3FF)%N].

Definition getUint8 (b : byte) : N := Byte.to_N b.

Definition textDecode (dataView : list byte) : jsstring :=
  flat_map utf16 (dropBOM (utf8Run utf8Init (map getUint8 dataView))).

(** *** The text strategy *)

(** The separator class [[\s,;]]. *)
Definition isSeparator (c : N) : bool := isWhiteSpace c || inClass ",;" c.

(** [s.split(/[\s,;]+/)] on a non-empty string: the pieces between maximal
    runs of separators; a run at either end leaves an empty piece there.
    [inRun] tells that the previous code unit was a separator, [piece] is
    the current piece, reversed. *)
Fixpoint splitFrom (inRun : bool) (piece : jsstring) (s : jsstring)
  : list jsstring :=
  match s with
  | [] => [rev piece]
  | c :: rest =>
      if isSeparator c then
        if inRun then splitFrom true [] rest
        else rev piece :: splitFrom true [] rest
      else splitFrom false (c :: piece) rest
  end.

Definition split (s : jsstring) : list jsstring := splitFrom false [] s.

(** [Boolean(s)] for a string. *)
Definition truthy (s : jsstring) : bool :=
  match s with [] => false | _ => true end.

(** [/^[URFDLBxyzMESurfdbxyz2']+$/.test(t)] *)
Definition validToken (t : jsstring) : bool :=
  truthy t && forallb (inClass "URFDLBxyzMESurfdbxyz2'") t.

(** [text.trim().split(/[\s,;]+/).map(s => s.trim()).filter(Boolean)] *)
Definition tokensOf (text : jsstring) : list jsstring :=
  filter truthy (map trim (split (trim text))).

(** Strategy 1 of [parseGanNotification]: [Some tokens] when the function
    returns from inside the [try] block, [None] when it goes on to the
    binary parse. *)
Definition textStrategy (dataView : list byte) : option (list jsstring) :=
  let text := textDecode dataView in
  if truthy text && (0 <? List.length (trim text))%nat then
    let tokens := tokensOf text in
    let valid := forallb validToken tokens in
    if valid then Some tokens else None
  else None.

(** *** The binary strategies *)

Definition idxToMove : list jsstring :=
  map str ["U"; "R"; "F"; "D"; "L"; "B";
           "U'"; "R'"; "F'"; "D'"; "L'"; "B'"]%string.

(** [idxToMove[b]]; only read below 12. *)
Definition idxToMoveAt (b : N) : jsstring := nth (N.to_nat b) idxToMove [].

Definition faceMap : list (option jsstring) :=
  [Some (str "U"); Some (str "R"); Some (str "F");
   Some (str "D"); Some (str "L"); Some (str "B"); None; None].

Definition faceOf (b : N) : N := N.land b 0x07.
Definition turnOf (b : N) : N := N.land (N.shiftr b 3) 0x03.

(** One round of the last loop: the tokens byte [b] pushes on [moves]. *)
Definition nibbleByte (b : N) : list jsstring :=
  match nth (N.to_nat (faceOf b)) faceMap None with
  | None => []
  | Some faceChar =>
      let notation := faceChar in
      let notation :=
        if (turnOf b =? 1)%N then faceChar ++ str "'" else notation in
      let notation :=
        if (turnOf b =? 2)%N then faceChar ++ str "2" else notation in
      [notation]
  end.

(** The last loop. *)
Definition nibbleMoves (bytes : list N) : list jsstring :=
  flat_map nibbleByte bytes.

(** The binary parse fallback, from [const bytes = []] to the end. *)
Definition binaryParse (bytes : list N) : list jsstring :=
  if (List.length bytes =? 1)%nat && (nth 0 bytes 0 <? 12)%N then
    [idxToMoveAt (nth 0 bytes 0%N)]
  else if (0 <? List.length bytes)%nat && forallb (fun b => (b <? 12)%N) bytes
  then map idxToMoveAt bytes
  else
    let moves := nibbleMoves bytes in
    if (0 <? List.length moves)%nat then moves else [].

(** [parseGanNotification(dataView)] *)
Definition parseGanNotification (dataView : list byte) : list jsstring :=
  match textStrategy dataView with
  | Some tokens => tokens
  | None => binaryParse (map getUint8 dataView)
  end.

(** A text payload: the bytes of an ASCII literal. *)
Definition payload (s : string) : list byte := list_byte_of_string s.

(** *** Vocabulary of the facts below *)

Definition isEmpty (l : list jsstring) : bool :=
  match l with [] => true | _ => false end.

(** The face letter of a face field below 6. *)
Definition faceLetter (face : N) : jsstring :=
  nth (N.to_nat face) (map str ["U"; "R"; "F"; "D"; "L"; "B"]%string) [].

End Gan.

(* ================================================================== *)
(** ** The Cube3D component: grid model and animation engine *)
(* ================================================================== *)

Module Cube3D.
Import JS.

(** An [{x, y, z}] object of numbers.  Grid coordinates are integers (the
    [-0] that negating a zero gives is the same coordinate as [0] for every
    comparison the component makes). *)
Record vec3 := { vx : Z; vy : Z; vz : Z }.

(** Scene positions are multiples of 0.05; they are kept in hundredths of a
    scene unit, so that [cubeSize + spacing] is 105 and the literal [1.05]
    of [resetCube] is 105 as well. *)
Definition cubeSize : Z := 100.
Definition spacing : Z := 5.

(** The fields of a cubie that the moves read or write: [position],
    [userData.originalPosition], [userData.gridPosition], [userData.index].
    The visual [rotation], which every path sets back to (0,0,0) when a move
    ends, is left out. *)
Record cubie := {
  position : vec3;
  originalPosition : vec3;
  gridPosition : vec3;
  index : nat
}.

Inductive axis := AxisX | AxisY | AxisZ.

(** *** createCube *)

Definition scale (k : Z) (g : vec3) : vec3 :=
  {| vx := vx g * k; vy := vy g * k; vz := vz g * k |}.

Definition newCubie (g : vec3) (idx : nat) : cubie :=
  {| position := scale (cubeSize + spacing) g;
     originalPosition := scale (cubeSize + spacing) g;
     gridPosition := g;
     index := idx |}.

(** The three nested loops, [x] outermost, each from -1 to 1. *)
Definition gridLoop : list vec3 :=
  flat_map (fun x =>
    flat_map (fun y =>
      map (fun z => {| vx := x; vy := y; vz := z |}) [-1; 0; 1]%Z)
    [-1; 0; 1]%Z)
  [-1; 0; 1]%Z.

(** [cubies.push(cubie)] with [index: cubies.length]. *)
Fixpoint pushAll (cubies : list cubie) (gs : list vec3) : list cubie :=
  match gs with
  | [] => cubies
  | g :: rest => pushAll (cubies ++ [newCubie g (List.length cubies)]) rest
  end.

Definition createCube : list cubie := pushAll [] gridLoop.

(** *** parseMoveNotation *)

Record move := {
  moveAxis : axis;
  direction : Z;
  layer : Z;
  duration : Z
}.

(** [notation.match(/^([RLUDFB])(['2]?)$/)]: the two groups. *)
Definition matchMove (notation : jsstring) : option (N * jsstring) :=
  match notation with
  | [f] => if inClass "RLUDFB" f then Some (f, []) else None
  | [f; m] =>
      if inClass "RLUDFB" f && inClass "'2" m then Some (f, [m]) else None
  | _ => None
  end.

(** [faceMap[notation[0]]]: axis, direction, layer. *)
Definition faceMap (f : N) : option (axis * Z * Z) :=
  if (f =? ch "R")%N then Some (AxisX, 1, 1)%Z
  else if (f =? ch "L")%N then Some (AxisX, -1, -1)%Z
  else if (f =? ch "U")%N then Some (AxisY, 1, 1)%Z
  else if (f =? ch "D")%N then Some (AxisY, -1, -1)%Z
  else if (f =? ch "F")%N then Some (AxisZ, 1, 1)%Z
  else if (f =? ch "B")%N then Some (AxisZ, -1, -1)%Z
  else None.

Definition jsEq (a b : jsstring) : bool :=
  if list_eq_dec N.eq_dec a b then true else false.

(** [None] is the [null] of a failed match. *)
Definition parseMoveNotation (notation : jsstring) : option move :=
  match matchMove notation with
  | None => None
  | Some (f, modifier) =>
      match faceMap f with
      | None => None
      | Some (ax, dir, lay) =>
          let dir' := if jsEq modifier (str "'") then (dir * -1)%Z else dir in
          let rotations :=
            if jsEq modifier (str "'") then 1%Z
            else if jsEq modifier (str "2") then 2%Z else 1%Z in
          Some {| moveAxis := ax; direction := dir'; layer := lay;
                  duration := (300 * rotations)%Z |}
      end
  end.

(** *** getAffectedCubies *)

Definition coordOn (ax : axis) (g : vec3) : Z :=
  match ax with AxisX => vx g | AxisY => vy g | AxisZ => vz g end.

(** The filter callback. *)
Definition affected (ax : axis) (lay : Z) (c : cubie) : bool :=
  (coordOn ax (gridPosition c) =? lay)%Z.

Definition getAffectedCubies (cubies : list cubie) (ax : axis) (lay : Z)
  : list cubie :=
  filter (affected ax lay) cubies.

(** *** updateCubiePosition *)

(** The computation of [newGridPos]. *)
Definition rotateGrid (ax : axis) (dir : Z) (g : vec3) : vec3 :=
  let x := vx g in
  let y := vy g in
  let z := vz g in
  match ax with
  | AxisX => {| vx := x;
                vy := if (dir >? 0)%Z then (- z)%Z else z;
                vz := if (dir >? 0)%Z then y else (- y)%Z |}
  | AxisY => {| vx := if (dir >? 0)%Z then z else (- z)%Z;
                vy := y;
                vz := if (dir >? 0)%Z then (- x)%Z else x |}
  | AxisZ => {| vx := if (dir >? 0)%Z then y else (- y)%Z;
                vy := if (dir >? 0)%Z then (- x)%Z else x;
                vz := z |}
  end.

Definition updateCubiePosition (c : cubie) (ax : axis) (lay dir : Z) : cubie :=
  let newGridPos := rotateGrid ax dir (gridPosition c) in
  let newPos := scale (cubeSize + spacing) newGridPos in
  {| position := newPos;
     originalPosition := newPos;
     gridPosition := newGridPos;
     index := index c |}.

(** *** animateMove *)

(** The last frame of [animate]: [affectedCubies.forEach(...)].  The filter
    hands back the objects of [cubiesRef.current] themselves, so the array
    changes in place: each entry that passed the filter is replaced by its
    update, the others stay. *)
Definition finalizePositions (cubies : list cubie) (ax : axis) (lay dir : Z)
  : list cubie :=
  map (fun c => if affected ax lay c
                then updateCubiePosition c ax lay dir else c) cubies.

(** The promise of [animateMove]: [Some] of the cubies once it resolves;
    [None] when it rejects, which is what destructuring the [null] of
    [parseMoveNotation] does. *)
Definition animateMove (cubies : list cubie) (moveNotation : jsstring)
  : option (list cubie) :=
  match parseMoveNotation moveNotation with
  | None => None
  | Some m => Some (finalizePositions cubies (moveAxis m) (layer m) (direction m))
  end.

(** *** The engine *)

Record engine := {
  cubies : list cubie;          (* cubiesRef.current *)
  isAnimating : bool;           (* isAnimatingRef.current *)
  moveQueue : list jsstring;    (* moveQueueRef.current *)
  isReady : bool;
  awaited : option jsstring;    (* the move whose promise executeMove awaits *)
  errors : list jsstring;       (* moves reported through console.error *)
  completions : nat             (* calls of onMoveComplete *)
}.

(** The state once [createCube] has run. *)
Definition mounted : engine :=
  {| cubies := createCube; isAnimating := false; moveQueue := [];
     isReady := false; awaited := None; errors := []; completions := 0 |}.

(** [setIsReady(true)] *)
Definition setReady (st : engine) : engine :=
  {| cubies := cubies st; isAnimating := isAnimating st;
     moveQueue := moveQueue st; isReady := true; awaited := awaited st;
     errors := errors st; completions := completions st |}.

(** [executeMove(moveNotation)] up to its [await]. *)
Definition executeMove (moveNotation : jsstring) (st : engine) : engine :=
  if isAnimating st || negb (isReady st) then
    {| cubies := cubies st; isAnimating := isAnimating st;
       moveQueue := moveQueue st ++ [moveNotation]; isReady := isReady st;
       awaited := awaited st; errors := errors st;
       completions := completions st |}
  else
    {| cubies := cubies st; isAnimating := true;
       moveQueue := moveQueue st; isReady := isReady st;
       awaited := Some moveNotation; errors := errors st;
       completions := completions st |}.

(** The rest of [executeMove], run when the awaited promise settles: the
    [catch] on rejection, then the [finally] block. *)
Definition settle (st : engine) : engine :=
  match awaited st with
  | None => st
  | Some moveNotation =>
      let '(cubies', errors') :=
        match animateMove (cubies st) moveNotation with
        | Some cs => (cs, errors st)
        | None => (cubies st, errors st ++ [moveNotation])
        end in
      match moveQueue st with
      | nextMove :: rest =>
          executeMove nextMove
            {| cubies := cubies'; isAnimating := false; moveQueue := rest;
               isReady := isReady st; awaited := None; errors := errors';
               completions := completions st |}
      | [] =>
          {| cubies := cubies'; isAnimating := false; moveQueue := [];
             isReady := isReady st; awaited := None; errors := errors';
             completions := S (completions st) |}
      end
  end.

(** *** resetCube *)

(** [Math.round(p / 1.05)] on a position in hundredths: the nearest
    integer, halves upwards. *)
Definition roundPitch (p : Z) : Z := ((2 * p + 105) / 210)%Z.

Definition resetCubie (c : cubie) : cubie :=
  {| position := originalPosition c;
     originalPosition := originalPosition c;
     gridPosition :=
       {| vx := roundPitch (vx (originalPosition c));
          vy := roundPitch (vy (originalPosition c));
          vz := roundPitch (vz (originalPosition c)) |};
     index := index c |}.

Definition resetCube (st : engine) : engine :=
  {| cubies := map resetCubie (cubies st); isAnimating := isAnimating st;
     moveQueue := moveQueue st; isReady := isReady st; awaited := awaited st;
     errors := errors st; completions := completions st |}.

(** *** Histories *)

Inductive event :=
| EvReady
| EvMove (moveNotation : jsstring)
| EvSettle
| EvResetCube.

Definition step (st : engine) (ev : event) : engine :=
  match ev with
  | EvReady => setReady st
  | EvMove m => executeMove m st
  | EvSettle => settle st
  | EvResetCube => resetCube st
  end.

Definition run (history : list event) : engine :=
  fold_left step history mounted.

(** *** The grid invariant *)

Definition inRange (v : Z) : Prop := (v = -1 \/ v = 0 \/ v = 1)%Z.

Definition inGrid (g : vec3) : Prop :=
  inRange (vx g) /\ inRange (vy g) /\ inRange (vz g).

(** The 27 grid coordinates are a bijection onto {-1,0,1}^3: no two cubies
    share one, and every point of the grid is some cubie's. *)
Definition gridBijection (cs : list cubie) : Prop :=
  List.length cs = 27%nat /\
  NoDup (map gridPosition cs) /\
  (forall g, In g (map gridPosition cs) <-> inGrid g).

(** *** Vocabulary of the facts below *)

(** What one committed move does to a grid coordinate. *)
Definition layerTurn (ax : axis) (lay dir : Z) (g : vec3) : vec3 :=
  if (coordOn ax g =? lay)%Z then rotateGrid ax dir g else g.

(** A direction of the other sign. *)
Definition opposite (dir : Z) : Z := if (dir >? 0)%Z then (-1)%Z else 1%Z.

(** The scene position of a cubie is its grid coordinate times the pitch. *)
Definition consistent (c : cubie) : Prop :=
  originalPosition c = scale (cubeSize + spacing) (gridPosition c).

(** The rank of a grid point in the order of [createCube]. *)
Definition gridRank (g : vec3) : nat :=
  Z.to_nat (9 * (vx g + 1) + 3 * (vy g + 1) + (vz g + 1))%Z.

(** What every state of the engine satisfies. *)
Definition wellFormed (st : engine) : Prop :=
  gridBijection (cubies st) /\ Forall consistent (cubies st).

End Cube3D.

(* ================================================================== *)
(** ** The App component: from a notification to the cube *)
(* ================================================================== *)

Module App.
Import JS CubeState Gan.

(** [handleIncomingMove(moveNotation)]: the [notation] it computes,
    [getCubeNotation(moveNotation) || moveNotation], and then hands to the
    cube-state module and to the 3D cube. *)
Definition handleIncomingMove (moveNotation : jsstring) : jsstring :=
  let notation := getCubeNotation (JSString moveNotation) in
  if truthy notation then notation else moveNotation.

(** The listener of [characteristicvaluechanged] with [handleIncomingMove]
    as [onMove]: the notations one notification hands on, in order. *)
Definition onNotification (value : list byte) : list jsstring :=
  let parsedMoves := parseGanNotification value in
  if (0 <? List.length parsedMoves)%nat
  then map handleIncomingMove parsedMoves
  else [].




End App.

(* ================================================================== *)
(** ** Vocabulary of the further facts *)
(* ================================================================== *)

Module Vocabulary.
Import JS CubeState Gan Cube3D.

(** The bytes of a string of code units below 256. *)
Definition asBytes (s : jsstring) : list byte :=
  map (fun c => match Byte.of_N c with Some b => b | None => x00 end) s.

(** Tokens written one after the other, a separator before each but the
    first. *)
Fixpoint joinWith (sep : N) (tokens : list jsstring) : jsstring :=
  match tokens with
  | [] => []
  | [t] => t
  | t :: rest => t ++ sep :: joinWith sep rest
  end.

(** The move characters of the text strategy. *)
Definition moveChar (c : N) : bool := inClass "URFDLBxyzMESurfdbxyz2'" c.

(** The cubies after the moves of a list have been animated one after the
    other, a rejected one leaving them as they are. *)
Definition animateAll (cs : list cubie) (ms : list jsstring) : list cubie :=
  fold_left (fun cs m => match animateMove cs m with
                         | Some cs' => cs'
                         | None => cs
                         end) ms cs.

(** The moves [parseMoveNotation] rejects, in order. *)
Definition rejected (ms : list jsstring) : list jsstring :=
  filter (fun m => match parseMoveNotation m with
                   | None => true
                   | Some _ => false
                   end) ms.

(** [executeMove] called for each move of a list, in one go. *)
Definition executeAll (ms : list jsstring) (st : engine) : engine :=
  fold_left (fun st m => executeMove m st) ms st.

(** A cubie at rest: both scene positions are the grid coordinate times
    the pitch. *)
Definition atRest (c : cubie) : Prop :=
  position c = scale (cubeSize + spacing) (gridPosition c) /\
  originalPosition c = scale (cubeSize + spacing) (gridPosition c).

(** The squared distance of a grid point from the centre: 0 for the core,
    1 for a face centre, 2 for an edge, 3 for a corner. *)
Definition norm2 (g : vec3) : Z :=
  (vx g * vx g + vy g * vy g + vz g * vz g)%Z.

(** An engine with no move under way and nothing queued. *)
Definition idle (st : engine) : Prop :=
  isReady st = true /\ isAnimating st = false /\
  awaited st = None /\ moveQueue st = [].

(** One more code point is owed while a sequence is open. *)
Definition owed (st : utf8) : nat :=
  if (bytesNeeded st =? 0)%N then 0%nat else 1%nat.

(** The moves a history hands to [executeMove], in order. *)
Definition handed (history : list event) : list jsstring :=
  flat_map (fun ev => match ev with EvMove m => [m] | _ => [] end) history.

(** The moves whose promise settles in the course of a history that
    starts in state [st], in the order in which they settle. *)
Fixpoint settledFrom (st : engine) (history : list event) : list jsstring :=
  match history with
  | [] => []
  | ev :: rest =>
      match ev, awaited st with
      | EvSettle, Some m => m :: settledFrom (step st ev) rest
      | _, _ => settledFrom (step st ev) rest
      end
  end.

(** The awaited move, as a list of at most one. *)
Definition underWay (st : engine) : list jsstring :=
  match awaited st with Some m => [m] | None => [] end.

(** What links a ready engine, started on the cubies [cs0], to the moves
    handed to it so far and to the moves settled so far. *)
Definition inStep (cs0 : list cubie) (st : engine)
  (settled given : list jsstring) : Prop :=
  isReady st = true /\
  (isAnimating st = true <-> awaited st <> None) /\
  (awaited st = None -> moveQueue st = []) /\
  given = settled ++ underWay st ++ moveQueue st /\
  cubies st = animateAll cs0 settled /\
  errors st = rejected settled.

End Vocabulary.

(* ================================================================== *)
(** ** Facts about the notation normaliser *)
(* ================================================================== *)

Section NormaliserFacts.
Import JS CubeState.

Lemma inClass_In (cls : string) (c : N) :
  inClass cls c = true -> In c (str cls).
Proof.
  unfold inClass. rewrite existsb_exists.
  intros [x [Hin Heq]]. apply N.eqb_eq in Heq. now subst.
Qed.

(** Splits [H : inClass cls c = true] into one goal per member of the
    class, with [c] replaced by the member. *)
Ltac class_cases H :=
  apply inClass_In in H; vm_compute in H;
  repeat match type of H with
         | _ \/ _ => destruct H as [H | H]
         end;
  [ subst .. | contradiction ].

Lemma matching_token_is_trimmed (s : jsstring) :
  matchesNotation s = true -> trim s = s.
Proof.
  destruct s as [|f [|m [|x r]]]; simpl; try discriminate.
  - intros H. class_cases H; reflexivity.
  - intros H. apply andb_true_iff in H as [Hf Hm].
    class_cases Hf; class_cases Hm; reflexivity.
Qed.

Lemma canonical_is_wire_format (s : jsstring) :
  matchesNotation s = true -> matchesCanonical (canonical s) = true.
Proof.
  destruct s as [|f [|m [|x r]]]; simpl; try discriminate.
  - intros H. class_cases H; reflexivity.
  - intros H. apply andb_true_iff in H as [Hf Hm].
    class_cases Hf; class_cases Hm; reflexivity.
Qed.

(** C9, as stated, fails: an input with surrounding white space does not
    match the pattern, yet it is not returned unchanged. *)
Lemma getCubeNotation_changes_unmatched_input :
  matchesNotation (str " r") = false /\
  getCubeNotation (JSString (str " r")) = str "R" /\
  getCubeNotation (JSString (str " r")) <> str " r" /\
  matchesNotation (str " X") = false /\
  getCubeNotation (JSString (str " X")) = str "X".
Proof. repeat split; discriminate. Qed.

(** C9, amended: an input that matches [^[URFDLBurfdlb][2']?$] comes back
    in canonical form, the face in upper case followed by the modifier as
    given, which is in the wire format; any other input is trimmed first,
    and comes back as the canonical form of the trimmed string when that
    matches and as the trimmed string otherwise, so unchanged exactly when
    it carries no surrounding white space and does not match. *)
Theorem getCubeNotation_canonical_or_trimmed (s : jsstring) :
  (matchesNotation s = true ->
     getCubeNotation (JSString s) = canonical s /\
     matchesCanonical (getCubeNotation (JSString s)) = true) /\
  (matchesNotation s = false ->
     (matchesNotation (trim s) = true ->
        getCubeNotation (JSString s) = canonical (trim s)) /\
     (matchesNotation (trim s) = false ->
        getCubeNotation (JSString s) = trim s) /\
     (getCubeNotation (JSString s) = s <-> trim s = s)).
Proof.
  split.
  - intros Hm. pose proof (matching_token_is_trimmed s Hm) as Ht.
    assert (getCubeNotation (JSString s) = canonical s) as E.
    { unfold getCubeNotation; cbv zeta. rewrite Ht, Hm.
      destruct s; reflexivity. }
    split; [exact E|]. rewrite E. now apply canonical_is_wire_format.
  - intros Hn. unfold getCubeNotation; cbv zeta.
    destruct (matchesNotation (trim s)) eqn:Ht.
    + split; [|split].
      * intros _. destruct (trim s); reflexivity.
      * discriminate.
      * split.
        -- intros E. exfalso.
           assert (matchesCanonical s = true) as Hc.
           { rewrite <- E. apply (canonical_is_wire_format _ Ht). }
           assert (matchesNotation s = true); [|congruence].
           clear - Hc. destruct s as [|f [|m [|x r]]]; simpl in *;
             try discriminate.
           ++ class_cases Hc; reflexivity.
           ++ apply andb_true_iff in Hc as [Hf Hm].
              class_cases Hf; class_cases Hm; reflexivity.
        -- intros E. rewrite E in Ht. congruence.
    + split; [|split].
      * discriminate.
      * reflexivity.
      * tauto.
Qed.

Lemma getCubeNotation_canonical_or_trimmed_witness :
  getCubeNotation (JSString (str "r'")) = str "R'" /\
  getCubeNotation (JSString (str " x ")) = str "x".
Proof.
  split.
  - apply (proj1 (getCubeNotation_canonical_or_trimmed (str "r'"))).
    reflexivity.
  - apply (proj2 (getCubeNotation_canonical_or_trimmed (str " x "))).
    + reflexivity.
    + reflexivity.
Defined.

End NormaliserFacts.

(* ================================================================== *)
(** ** Facts about the notification decoder *)
(* ================================================================== *)

Section DecoderFacts.
Import JS Gan.

Lemma isEmpty_nil (l : list jsstring) : isEmpty l = true <-> l = [].
Proof. destruct l; simpl; split; congruence. Qed.

Lemma inClass_iff (cls : string) (c : N) :
  inClass cls c = true <-> In c (str cls).
Proof.
  unfold inClass. rewrite existsb_exists. split.
  - intros [x [Hin Heq]]. apply N.eqb_eq in Heq. now subst.
  - intros Hin. exists c. split; [assumption | apply N.eqb_refl].
Qed.

(** Every single-byte payload from 12 upwards, comma and semicolon apart,
    by enumeration. *)
Lemma single_byte_table (b : byte) :
  (if (12 <=? getUint8 b)%N && negb (inClass ",;" (getUint8 b))
   then Bool.eqb (isEmpty (parseGanNotification [b]))
          ((6 <=? faceOf (getUint8 b))%N && negb (inClass "Ff'" (getUint8 b)))
   else true) = true.
Proof. destruct b; vm_compute; reflexivity. Qed.

(** C4, as stated, fails: the single byte 12 is a form feed, which the text
    strategy trims away, and the last strategy reads it as face 4, turn 1. *)
Lemma single_byte_12_is_decoded :
  (12 <= getUint8 x0c)%N /\
  parseGanNotification [x0c] = [str "L'"] /\
  parseGanNotification [x0c] <> [].
Proof. repeat split; discriminate. Qed.

(** C4, amended: the single byte 0 decodes to exactly ["U"], the single byte
    7 to exactly ["R'"]; a single byte of value 12 or more, the comma and
    the semicolon left aside, decodes to the empty sequence exactly when its
    low three bits are 6 or 7 and it is not the code of [F], [f] or ['],
    the three such bytes that the text strategy accepts as a token. *)
Theorem single_byte_payloads :
  parseGanNotification [x00] = [str "U"] /\
  parseGanNotification [x07] = [str "R'"] /\
  (forall b : byte,
     (12 <= getUint8 b)%N ->
     ~ In (getUint8 b) (str ",;") ->
     (parseGanNotification [b] = [] <->
      (6 <= faceOf (getUint8 b))%N /\ ~ In (getUint8 b) (str "Ff'"))).
Proof.
  split; [reflexivity|]. split; [reflexivity|].
  intros b Hb Hsep. pose proof (single_byte_table b) as T.
  apply N.leb_le in Hb. rewrite Hb in T.
  rewrite <- inClass_iff, not_true_iff_false in Hsep. rewrite Hsep in T.
  simpl in T. apply Bool.eqb_prop in T.
  rewrite <- isEmpty_nil, T, andb_true_iff, negb_true_iff, N.leb_le.
  rewrite <- inClass_iff, not_true_iff_false. reflexivity.
Qed.

Lemma single_byte_payloads_witness :
  (12 <= getUint8 x0e)%N /\ parseGanNotification [x0e] = [].
Proof.
  assert (12 <= getUint8 x0e)%N as H by (vm_compute; discriminate).
  split; [exact H|].
  apply (proj2 (proj2 single_byte_payloads) x0e H).
  - vm_compute. intros [F|[F|F]]; try discriminate F; exact F.
  - split.
    + vm_compute; discriminate.
    + vm_compute. intros [F|[F|[F|F]]]; try discriminate F; exact F.
Defined.

(** C5, as stated, fails: the payload "R U X" does not decode to the empty
    sequence. *)
Lemma invalid_text_falls_through_to_bytes :
  parseGanNotification (payload "R U X") <> [].
Proof. discriminate. Qed.

(** C5, amended: "R U R'" decodes to ["R","U","R'"]; the text strategy
    takes a payload only when every token of it, split on white space,
    commas and semicolons, is made of the characters
    [URFDLBxyzMESurfdbxyz2'] alone, and then returns all of them; one token
    outside that set and the text strategy emits nothing, as for "R U X";
    the bytes then go to the binary strategies, which read "R U X" as
    ["F2","U","B2","U","U"]. *)
Theorem text_strategy_is_all_or_nothing :
  parseGanNotification (payload "R U R'") = [str "R"; str "U"; str "R'"] /\
  textStrategy (payload "R U X") = None /\
  parseGanNotification (payload "R U X") =
    [str "F2"; str "U"; str "B2"; str "U"; str "U"] /\
  (forall dataView tokens,
     textStrategy dataView = Some tokens ->
     tokens = tokensOf (textDecode dataView) /\
     Forall (fun t => validToken t = true) tokens /\
     parseGanNotification dataView = tokens) /\
  (forall dataView t,
     In t (tokensOf (textDecode dataView)) ->
     validToken t = false ->
     textStrategy dataView = None /\
     parseGanNotification dataView = binaryParse (map getUint8 dataView)).
Proof.
  split; [reflexivity|]. split; [reflexivity|]. split; [reflexivity|].
  split.
  - intros dv tokens H. unfold parseGanNotification. rewrite H.
    unfold textStrategy in H; cbv zeta in H.
    destruct (truthy (textDecode dv) && _); [|discriminate].
    destruct (forallb validToken (tokensOf (textDecode dv))) eqn:V;
      [|discriminate].
    injection H as <-. repeat split.
    apply Forall_forall. now apply forallb_forall.
  - intros dv t Hin Hbad.
    assert (textStrategy dv = None) as E.
    { unfold textStrategy; cbv zeta.
      destruct (truthy (textDecode dv) && _); [|reflexivity].
      destruct (forallb validToken (tokensOf (textDecode dv))) eqn:V;
        [|reflexivity].
      rewrite forallb_forall in V. specialize (V t Hin). congruence. }
    split; [exact E|]. unfold parseGanNotification. now rewrite E.
Qed.

Lemma text_strategy_is_all_or_nothing_witness :
  Forall (fun t => validToken t = true) [str "R"; str "U"; str "R'"] /\
  textStrategy (payload "R U X") = None.
Proof.
  destruct text_strategy_is_all_or_nothing as (_ & _ & _ & Hall & Hnone).
  split.
  - apply (Hall (payload "R U R'") [str "R"; str "U"; str "R'"]).
    reflexivity.
  - apply (Hnone (payload "R U X") (str "X")).
    + vm_compute. right; right; left; reflexivity.
    + reflexivity.
Defined.

(** C6, as stated, fails: byte 0x18 has face field 0 and turn field 3, and
    the loop pushes a token for it. *)
Lemma turn_3_pushes_a_token :
  faceOf (getUint8 x18) = 0%N /\
  turnOf (getUint8 x18) = 3%N /\
  nibbleMoves [getUint8 x18] = [str "U"] /\
  nibbleMoves [getUint8 x18] <> [].
Proof. repeat split; discriminate. Qed.

(** C6, amended: in the nibble-packed strategy every byte is looked at, one
    after the other; a face field [byte & 0x07] of 6 or 7 pushes nothing and
    the scan goes on; below 6, a turn field [(byte >> 3) & 0x03] of 0 pushes
    the plain face letter, 1 the letter with ['], 2 the letter with [2], and
    3 the plain face letter again, like 0. *)
Theorem nibble_strategy_per_byte (b : byte) (rest : list byte) :
  let n := getUint8 b in
  let letter := faceLetter (faceOf n) in
  nibbleMoves (map getUint8 (b :: rest)) =
    nibbleByte n ++ nibbleMoves (map getUint8 rest) /\
  nibbleByte n =
    (if (6 <=? faceOf n)%N then []
     else if (turnOf n =? 0)%N then [letter]
     else if (turnOf n =? 1)%N then [letter ++ str "'"]
     else if (turnOf n =? 2)%N then [letter ++ str "2"]
     else [letter]) /\
  (faceOf n <= 7)%N /\ (turnOf n <= 3)%N.
Proof.
  cbv zeta. split; [reflexivity|].
  destruct b; vm_compute; repeat split; discriminate.
Qed.

End DecoderFacts.

Section DecoderEmptiness.
Import JS Gan.

Lemma nibbleByte_empty (b : byte) :
  nibbleByte (getUint8 b) = [] -> (6 <= faceOf (getUint8 b))%N.
Proof.
  intros H. apply N.leb_le. revert H.
  destruct b; vm_compute; intros H; (reflexivity || discriminate H).
Qed.

Lemma nibbleMoves_empty (dataView : list byte) :
  nibbleMoves (map getUint8 dataView) = [] ->
  Forall (fun b => (6 <= faceOf (getUint8 b))%N) dataView.
Proof.
  induction dataView as [|b rest IH]; intros H; [constructor|].
  change (nibbleByte (getUint8 b) ++ nibbleMoves (map getUint8 rest) = [])
    in H.
  apply app_eq_nil in H as [Hb Hrest].
  constructor; [now apply nibbleByte_empty | now apply IH].
Qed.

(** When the decoder returns nothing, either the text strategy took a text
    without any token, or every byte has a face field of 6 or 7. *)
Lemma decoder_empty_cases (dataView : list byte) :
  parseGanNotification dataView = [] ->
  textStrategy dataView = Some [] \/
  (textStrategy dataView = None /\
   Forall (fun b => (6 <= faceOf (getUint8 b))%N) dataView).
Proof.
  unfold parseGanNotification.
  destruct (textStrategy dataView) as [tokens|]; intros H.
  - left. now subst.
  - right. split; [reflexivity|].
    unfold binaryParse in H.
    destruct (_ && (nth 0 _ 0 <? 12)%N); [discriminate|].
    destruct ((0 <? List.length (map getUint8 dataView))%nat && _) eqn:E.
    + apply andb_true_iff in E as [E _].
      destruct dataView; [discriminate E | discriminate H].
    + apply nibbleMoves_empty. cbv zeta in H.
      destruct (nibbleMoves (map getUint8 dataView)); [reflexivity|].
      discriminate H.
Qed.

(** C10 at the payload [0x2C], the one byte of the text ",": its low three
    bits are 4, the text strategy finds no token in it, takes the empty
    token list for valid and returns it; the binary strategies, which are
    not reached, read the byte as ["L'"]. *)
Theorem separator_only_text_decodes_to_nothing :
  faceOf (getUint8 x2c) = 4%N /\
  textDecode [x2c] = str "," /\
  tokensOf (str ",") = [] /\
  textStrategy [x2c] = Some [] /\
  parseGanNotification [x2c] = [] /\
  binaryParse [getUint8 x2c] = [str "L'"].
Proof. repeat split. Qed.

End DecoderEmptiness.

(* ================================================================== *)
(** ** Facts about the grid model *)
(* ================================================================== *)

Section GridFacts.
Import JS Cube3D.
Local Open Scope Z_scope.

Ltac grid_cases :=
  unfold layerTurn, rotateGrid, coordOn, opposite, inGrid, inRange in *;
  simpl in *;
  repeat match goal with
         | |- context [(?a =? ?b)] => destruct (Z.eqb_spec a b)
         | |- context [(?a >? ?b)] => destruct (Z.gtb_spec a b)
         | H : context [(?a =? ?b)] |- _ => destruct (Z.eqb_spec a b)
         | H : context [(?a >? ?b)] |- _ => destruct (Z.gtb_spec a b)
         end;
  simpl in *.

Lemma vec3_eq (a b : vec3) :
  vx a = vx b -> vy a = vy b -> vz a = vz b -> a = b.
Proof. destruct a, b; simpl; congruence. Qed.

Lemma rotateGrid_keeps_axis (ax : axis) (dir : Z) (g : vec3) :
  coordOn ax (rotateGrid ax dir g) = coordOn ax g.
Proof. destruct ax; reflexivity. Qed.

Lemma layerTurn_inverse (ax : axis) (lay dir : Z) (g : vec3) :
  layerTurn ax lay dir (layerTurn ax lay (opposite dir) g) = g.
Proof.
  destruct g as [x y z], ax; grid_cases; apply vec3_eq; simpl; lia.
Qed.

Lemma layerTurn_injective (ax : axis) (lay dir : Z) :
  Injective (layerTurn ax lay dir).
Proof.
  intros [x y z] [x' y' z'] H.
  destruct ax; grid_cases; injection H; intros; apply vec3_eq; simpl; lia.
Qed.

Lemma layerTurn_inGrid (ax : axis) (lay dir : Z) (g : vec3) :
  inGrid (layerTurn ax lay dir g) <-> inGrid g.
Proof.
  destruct g as [x y z], ax; grid_cases; lia.
Qed.

Lemma finalizePositions_grid (cs : list cubie) (ax : axis) (lay dir : Z) :
  map gridPosition (finalizePositions cs ax lay dir) =
  map (layerTurn ax lay dir) (map gridPosition cs).
Proof.
  unfold finalizePositions. rewrite !map_map. apply map_ext.
  intros c. unfold layerTurn, affected.
  destruct (coordOn ax (gridPosition c) =? lay); reflexivity.
Qed.

(** The cubies the last frame updates are the ones the filter returned:
    after the commit the same layer holds them, each updated once, in the
    order of the array. *)
Lemma finalizePositions_affected (cs : list cubie) (ax : axis) (lay dir : Z) :
  getAffectedCubies (finalizePositions cs ax lay dir) ax lay =
  map (fun c => updateCubiePosition c ax lay dir) (getAffectedCubies cs ax lay).
Proof.
  unfold getAffectedCubies, finalizePositions.
  induction cs as [|c rest IH]; [reflexivity|]. simpl.
  destruct (affected ax lay c) eqn:A.
  - assert (affected ax lay (updateCubiePosition c ax lay dir) = true) as ->.
    { unfold affected in *; simpl. now rewrite rotateGrid_keeps_axis. }
    simpl. now rewrite IH.
  - rewrite A. exact IH.
Qed.

Lemma finalizePositions_bijection (cs : list cubie) (ax : axis) (lay dir : Z) :
  gridBijection cs -> gridBijection (finalizePositions cs ax lay dir).
Proof.
  intros (Hlen & Hnd & Hin). unfold gridBijection.
  rewrite finalizePositions_grid. split; [|split].
  - unfold finalizePositions. now rewrite length_map.
  - apply Injective_map_NoDup; [apply layerTurn_injective | assumption].
  - intros g. rewrite in_map_iff. split.
    + intros (g0 & <- & Hg0). apply layerTurn_inGrid. now apply Hin.
    + intros Hg. exists (layerTurn ax lay (opposite dir) g). split.
      * apply layerTurn_inverse.
      * apply Hin. now apply layerTurn_inGrid.
Qed.

Lemma finalizePositions_consistent (cs : list cubie) (ax : axis) (lay dir : Z) :
  Forall consistent cs -> Forall consistent (finalizePositions cs ax lay dir).
Proof.
  intros H. unfold finalizePositions. apply Forall_map.
  eapply Forall_impl; [|exact H]. intros c Hc.
  destruct (affected ax lay c); [reflexivity | assumption].
Qed.

Lemma roundPitch_scale (v : Z) : roundPitch (v * (cubeSize + spacing)) = v.
Proof.
  unfold roundPitch, cubeSize, spacing.
  symmetry. apply (Z.div_unique _ 210 v 105); lia.
Qed.

Lemma resetCubie_grid (c : cubie) :
  consistent c -> gridPosition (resetCubie c) = gridPosition c
                  /\ consistent (resetCubie c).
Proof.
  unfold consistent. intros H.
  assert (gridPosition (resetCubie c) = gridPosition c) as E.
  { unfold resetCubie; simpl. rewrite H. unfold scale; simpl.
    rewrite !roundPitch_scale. now destruct (gridPosition c). }
  split; [exact E|]. rewrite E. exact H.
Qed.

Lemma createCube_bijection : gridBijection createCube.
Proof.
  split; [reflexivity|]. split.
  - apply (NoDup_map_inv gridRank).
    replace (map gridRank (map gridPosition createCube)) with (seq 0 27)
      by (vm_compute; reflexivity).
    apply seq_NoDup.
  - intros [x y z]. split.
    + revert x y z.
      assert (Forall inGrid (map gridPosition createCube)) as F.
      { let l := eval vm_compute in (map gridPosition createCube) in
        change (Forall inGrid l).
        repeat (apply Forall_cons;
                [unfold inGrid, inRange; simpl; lia|]).
        apply Forall_nil. }
      intros x y z. now apply (proj1 (Forall_forall _ _) F).
    + unfold inGrid, inRange; cbn [vx vy vz]. intros (Hx & Hy & Hz).
      destruct Hx as [-> | [-> | ->]], Hy as [-> | [-> | ->]], Hz as [-> | [-> | ->]];
        vm_compute; repeat (try (left; reflexivity); right).
Qed.

Lemma createCube_consistent : Forall consistent createCube.
Proof. vm_compute. repeat constructor. Qed.

End GridFacts.

(* ================================================================== *)
(** ** Facts about the animation engine *)
(* ================================================================== *)

Section EngineFacts.
Import JS Cube3D.
Local Open Scope Z_scope.

Lemma executeMove_cubies (m : jsstring) (st : engine) :
  cubies (executeMove m st) = cubies st.
Proof. unfold executeMove. now destruct (_ || _). Qed.

Lemma animateMove_wellFormed (cs cs' : list cubie) (m : jsstring) :
  gridBijection cs /\ Forall consistent cs ->
  animateMove cs m = Some cs' ->
  gridBijection cs' /\ Forall consistent cs'.
Proof.
  intros [Hb Hc]. unfold animateMove.
  destruct (parseMoveNotation m) as [mv|]; [|discriminate].
  intros [= <-]. split.
  - now apply finalizePositions_bijection.
  - now apply finalizePositions_consistent.
Qed.

Lemma settle_cubies (st : engine) :
  cubies (settle st) = cubies st \/
  exists m cs, awaited st = Some m /\ animateMove (cubies st) m = Some cs
               /\ cubies (settle st) = cs.
Proof.
  unfold settle. destruct (awaited st) as [m|]; [|now left].
  destruct (animateMove (cubies st) m) as [cs|] eqn:A.
  - right. exists m, cs. split; [reflexivity|]. split; [exact A|].
    destruct (moveQueue st); [reflexivity | now rewrite executeMove_cubies].
  - left.
    destruct (moveQueue st); [reflexivity | now rewrite executeMove_cubies].
Qed.

Lemma resetCube_wellFormed (st : engine) :
  wellFormed st ->
  map gridPosition (cubies (resetCube st)) = map gridPosition (cubies st)
  /\ wellFormed (resetCube st).
Proof.
  intros [Hb Hc].
  assert (map gridPosition (cubies (resetCube st))
          = map gridPosition (cubies st)) as E.
  { simpl. rewrite map_map. apply map_ext_in. intros c Hin.
    apply resetCubie_grid. revert c Hin. now apply Forall_forall. }
  split; [exact E|]. split.
  - destruct Hb as (Hlen & Hnd & Hin). unfold gridBijection.
    rewrite E.
    split; [simpl; rewrite length_map; exact Hlen|].
    split; [exact Hnd | exact Hin].
  - simpl. apply Forall_map. eapply Forall_impl; [|exact Hc].
    intros c. apply resetCubie_grid.
Qed.

Lemma step_wellFormed (st : engine) (ev : event) :
  wellFormed st -> wellFormed (step st ev).
Proof.
  intros W. destruct ev as [|m| |]; simpl.
  - exact W.
  - unfold wellFormed. now rewrite executeMove_cubies.
  - unfold wellFormed.
    destruct (settle_cubies st) as [E | (m & cs & _ & A & E)]; rewrite E.
    + exact W.
    + exact (animateMove_wellFormed _ _ _ W A).
  - now apply resetCube_wellFormed.
Qed.

Lemma history_wellFormed (history : list event) (st : engine) :
  wellFormed st -> wellFormed (fold_left step history st).
Proof.
  revert st. induction history as [|ev rest IH]; intros st W; [exact W|].
  simpl. apply IH. now apply step_wellFormed.
Qed.

Lemma mounted_wellFormed : wellFormed mounted.
Proof. split; [apply createCube_bijection | apply createCube_consistent]. Qed.

(** C2: whatever calls of [executeMove], promise settlements (commits and
    rejected tokens), [setIsReady] and [resetCube] came before, in whatever
    order, the grid coordinates of the 27 cubies are a bijection onto
    {-1,0,1}^3, and they still are after one more [resetCube]. *)
Theorem grid_stays_a_bijection (history : list event) :
  gridBijection (cubies mounted) /\
  gridBijection (cubies (run history)) /\
  gridBijection (cubies (settle (run history))) /\
  gridBijection (cubies (resetCube (run history))).
Proof.
  pose proof (history_wellFormed history mounted mounted_wellFormed) as W.
  fold (run history) in W.
  split; [exact (proj1 mounted_wellFormed)|].
  split; [exact (proj1 W)|].
  split.
  - exact (proj1 (step_wellFormed _ EvSettle W)).
  - exact (proj1 (step_wellFormed _ EvResetCube W)).
Qed.

(** C7: for each axis, each direction +1 or -1 and each grid coordinate of
    {-1,0,1}^3, four quarter turns by the committed formula give the
    coordinate back; so do four calls of [updateCubiePosition] on a cubie. *)
Theorem four_quarter_turns_are_identity
  (ax : axis) (dir lay : Z) (c : cubie) :
  dir = 1 \/ dir = -1 ->
  inGrid (gridPosition c) ->
  let turn := rotateGrid ax dir in
  let update := fun c' => updateCubiePosition c' ax lay dir in
  turn (turn (turn (turn (gridPosition c)))) = gridPosition c /\
  gridPosition (update (update (update (update c)))) = gridPosition c.
Proof.
  intros Hdir Hg turn update.
  assert (turn (turn (turn (turn (gridPosition c)))) = gridPosition c) as E.
  { subst turn. destruct (gridPosition c) as [x y z].
    destruct ax, Hdir as [-> | ->]; apply vec3_eq; simpl; lia. }
  split; [exact E | exact E].
Qed.

Lemma four_quarter_turns_are_identity_witness :
  let g := {| vx := 1; vy := -1; vz := 0 |} in
  rotateGrid AxisY (-1)
    (rotateGrid AxisY (-1) (rotateGrid AxisY (-1) (rotateGrid AxisY (-1) g)))
  = g.
Proof.
  intros g.
  apply (four_quarter_turns_are_identity AxisY (-1) (-1) (newCubie g 0%nat)).
  - right; reflexivity.
  - unfold inGrid, inRange; simpl. lia.
Defined.

End EngineFacts.

Section MoveFacts.
Import JS Cube3D.
Local Open Scope Z_scope.

(** C1 on the code: for each of the six faces the half-turn token is
    committed exactly as the plain token of that face, one quarter turn
    (only the duration differs); so two commits of "R2" on the solved cube
    leave the corner cubie of (1,1,1) at (1,-1,-1), not back at (1,1,1). *)
Theorem half_turn_token_commits_one_quarter_turn :
  Forall (fun f => forall cs,
            animateMove cs [f; ch "2"] = animateMove cs [f] /\
            animateMove cs [f] <> None)
         (str "RLUDFB") /\
  parseMoveNotation (str "R2") =
    Some {| moveAxis := AxisX; direction := 1; layer := 1; duration := 600 |} /\
  let st := run [EvReady; EvMove (str "R2"); EvSettle;
                 EvMove (str "R2"); EvSettle] in
  nth_error (map gridPosition (cubies mounted)) 26
    = Some {| vx := 1; vy := 1; vz := 1 |} /\
  nth_error (map gridPosition (cubies st)) 26
    = Some {| vx := 1; vy := -1; vz := -1 |} /\
  awaited st = None /\ moveQueue st = [] /\ errors st = [].
Proof.
  split.
  - repeat (apply Forall_cons; [intros cs; split; [reflexivity|discriminate]|]).
    apply Forall_nil.
  - split; [reflexivity|]. cbv zeta. repeat split; vm_compute; reflexivity.
Qed.

Lemma matchMove_parse (m : jsstring) :
  matchMove m = None <-> parseMoveNotation m = None.
Proof.
  unfold parseMoveNotation. split; [now intros ->|].
  destruct (matchMove m) as [[f modifier]|] eqn:E; [|reflexivity].
  assert (inClass "RLUDFB" f = true) as Hf.
  { unfold matchMove in E. destruct m as [|a [|b [|c r]]]; try discriminate.
    - destruct (inClass "RLUDFB" a) eqn:Ha; [|discriminate].
      now injection E as <- _.
    - destruct (inClass "RLUDFB" a) eqn:Ha; [|discriminate].
      destruct (inClass "'2" b); [|discriminate]. now injection E as <- _. }
  apply inClass_iff in Hf. vm_compute in Hf.
  repeat match type of Hf with
         | _ \/ _ => destruct Hf as [Hf | Hf]
         end; try contradiction; subst f; discriminate.
Qed.

(** C8, as stated, fails: a token outside [^[RLUDFB]['2]?$] that arrives
    while a move is running is put on the queue. *)
Lemma unmatched_token_enters_the_queue :
  matchMove (str "X") = None /\
  parseMoveNotation (str "X") = None /\
  moveQueue (run [EvReady; EvMove (str "R")]) = [] /\
  moveQueue (run [EvReady; EvMove (str "R"); EvMove (str "X")]) = [str "X"].
Proof. repeat split. Qed.

(** C8, amended: a token that does not match [^[RLUDFB]['2]?$] maps to no
    (axis, direction, layer) triple and is not checked when it is handed
    over: while a move is running (or before the view is ready) it is
    appended to the queue like any other token, otherwise it becomes the
    awaited move.  It is rejected when its turn to run comes: the grid and
    the positions are left as they were, the token is reported and dropped,
    and the pipeline goes on, the next queued token becoming the awaited
    move, or, the queue being empty, the engine falling idle with a
    completion notice. *)
Theorem unmatched_token_is_dropped_when_run (m : jsstring) (st : engine) :
  matchMove m = None ->
  parseMoveNotation m = None /\
  (isAnimating st = true \/ isReady st = false ->
     moveQueue (executeMove m st) = moveQueue st ++ [m] /\
     awaited (executeMove m st) = awaited st /\
     cubies (executeMove m st) = cubies st /\
     errors (executeMove m st) = errors st) /\
  (isAnimating st = false -> isReady st = true ->
     moveQueue (executeMove m st) = moveQueue st /\
     awaited (executeMove m st) = Some m /\
     cubies (executeMove m st) = cubies st /\
     errors (executeMove m st) = errors st) /\
  (awaited st = Some m -> isReady st = true ->
     cubies (settle st) = cubies st /\
     errors (settle st) = errors st ++ [m] /\
     match moveQueue st with
     | next :: rest =>
         awaited (settle st) = Some next /\
         isAnimating (settle st) = true /\
         moveQueue (settle st) = rest /\
         completions (settle st) = completions st
     | [] =>
         awaited (settle st) = None /\
         isAnimating (settle st) = false /\
         moveQueue (settle st) = [] /\
         completions (settle st) = S (completions st)
     end).
Proof.
  intros Hm. apply matchMove_parse in Hm. split; [exact Hm|].
  split; [|split].
  - intros Hbusy. unfold executeMove.
    assert (isAnimating st || negb (isReady st) = true) as ->.
    { destruct Hbusy as [-> | ->]; [reflexivity | apply orb_true_r]. }
    repeat split.
  - intros Hidle Hready. unfold executeMove. rewrite Hidle, Hready.
    repeat split.
  - intros Haw Hready. unfold settle, animateMove. rewrite Haw, Hm.
    destruct (moveQueue st) as [|next rest].
    + repeat split.
    + unfold executeMove; simpl. rewrite Hready. repeat split.
Qed.

Lemma unmatched_token_is_dropped_when_run_witness :
  let busy := run [EvReady; EvMove (str "R")] in
  let idle := run [EvReady] in
  let turn := run [EvReady; EvMove (str "X"); EvMove (str "U")] in
  moveQueue (executeMove (str "X") busy) = moveQueue busy ++ [str "X"] /\
  awaited (executeMove (str "X") idle) = Some (str "X") /\
  cubies (settle turn) = cubies turn /\
  errors (settle turn) = errors turn ++ [str "X"].
Proof.
  intros busy idle turn.
  assert (matchMove (str "X") = None) as Hm by reflexivity.
  split; [|split].
  - apply (unmatched_token_is_dropped_when_run (str "X") busy Hm).
    left; reflexivity.
  - apply (unmatched_token_is_dropped_when_run (str "X") idle Hm);
      reflexivity.
  - destruct (unmatched_token_is_dropped_when_run (str "X") turn Hm)
      as (_ & _ & _ & H).
    destruct H as (Hc & He & _); [reflexivity | reflexivity |].
    split; [exact Hc | exact He].
Defined.

(** C3, as stated, fails: a move queued behind a running one is still
    queued after [resetCube]. *)
Lemma resetCube_leaves_queued_moves :
  let st := run [EvReady; EvMove (str "R"); EvMove (str "U")] in
  moveQueue st = [str "U"] /\
  moveQueue (resetCube st) = [str "U"] /\
  moveQueue (resetCube st) <> [].
Proof. repeat split; discriminate. Qed.

(** C3, amended: [resetCube] leaves the pending move queue, the awaited
    move and the busy flag as they are, replays no move and reports
    nothing; what it does to a cubie depends on that cubie's stored
    [originalPosition] alone: the position becomes that stored position and
    the grid coordinate that stored position divided by the pitch 1.05,
    rounded. *)
Theorem resetCube_keeps_queue_snaps_to_stored (st : engine) :
  moveQueue (resetCube st) = moveQueue st /\
  awaited (resetCube st) = awaited st /\
  isAnimating (resetCube st) = isAnimating st /\
  errors (resetCube st) = errors st /\
  completions (resetCube st) = completions st /\
  Forall2 (fun c c' =>
             position c' = originalPosition c /\
             originalPosition c' = originalPosition c /\
             gridPosition c' =
               {| vx := roundPitch (vx (originalPosition c));
                  vy := roundPitch (vy (originalPosition c));
                  vz := roundPitch (vz (originalPosition c)) |} /\
             index c' = index c)
          (cubies st) (cubies (resetCube st)).
Proof.
  repeat (split; [reflexivity|]).
  simpl. induction (cubies st) as [|c cs IH]; simpl.
  - constructor.
  - constructor; [repeat split | exact IH].
Qed.

End MoveFacts.

(* ================================================================== *)
(** ** Further facts: trimming and the normaliser *)
(* ================================================================== *)

Section TrimFacts.
Import JS CubeState Cube3D.

Lemma trimStart_split (s : jsstring) :
  exists w, s = w ++ trimStart s /\ forallb isWhiteSpace w = true.
Proof.
  induction s as [|c r (w & E & W)]; [now exists []|]. simpl.
  destruct (isWhiteSpace c) eqn:C.
  - exists (c :: w). simpl. rewrite C, W. split; [now f_equal | reflexivity].
  - now exists [].
Qed.

Lemma trimStart_fixed (c : N) (r : jsstring) :
  isWhiteSpace c = false -> trimStart (c :: r) = c :: r.
Proof. intros H. simpl. now rewrite H. Qed.

Lemma trimStart_head (s : jsstring) :
  trimStart s = [] \/
  exists c r, trimStart s = c :: r /\ isWhiteSpace c = false.
Proof.
  induction s as [|c r IH]; [now left|]. simpl.
  destruct (isWhiteSpace c) eqn:C; [exact IH|]. right. now exists c, r.
Qed.

Lemma trimStart_idem (s : jsstring) : trimStart (trimStart s) = trimStart s.
Proof.
  destruct (trimStart_head s) as [-> | (c & r & -> & C)]; [reflexivity|].
  now apply trimStart_fixed.
Qed.

Lemma trimEnd_idem (s : jsstring) : trimEnd (trimEnd s) = trimEnd s.
Proof. unfold trimEnd. now rewrite rev_involutive, trimStart_idem. Qed.

(** [trimEnd] keeps a first code unit that is not white space. *)
Lemma trimEnd_keeps_head (c : N) (r : jsstring) :
  isWhiteSpace c = false -> exists r', trimEnd (c :: r) = c :: r'.
Proof.
  intros C. unfold trimEnd.
  destruct (trimStart_split (rev (c :: r))) as (w & E & W).
  apply (f_equal (@rev N)) in E. rewrite rev_involutive, rev_app_distr in E.
  destruct (rev (trimStart (rev (c :: r)))) as [|c' r'] eqn:T.
  - simpl in E. exfalso.
    assert (In c (rev w)) as Hin by (rewrite <- E; now left).
    apply in_rev in Hin. rewrite forallb_forall in W.
    specialize (W c Hin). congruence.
  - simpl in E. injection E as <- _. now exists r'.
Qed.

Lemma trim_idem (s : jsstring) : trim (trim s) = trim s.
Proof.
  assert (trim s = trimEnd (trimStart s)) as E0 by reflexivity.
  destruct (trimStart_head s) as [T | (c & r & T & C)]; rewrite T in E0.
  - rewrite E0. reflexivity.
  - destruct (trimEnd_keeps_head c r C) as (r' & E).
    rewrite E0. unfold trim. rewrite E at 1.
    rewrite (trimStart_fixed c r' C), <- E. apply trimEnd_idem.
Qed.

(** A string without white space is its own trim. *)
Lemma trim_without_white_space (s : jsstring) :
  forallb (fun c => negb (isWhiteSpace c)) s = true -> trim s = s.
Proof.
  intros H.
  assert (forall t, forallb (fun c => negb (isWhiteSpace c)) t = true ->
                    trimStart t = t) as F.
  { intros [|c r]; [reflexivity|]. simpl. intros E.
    apply andb_true_iff in E as [E _]. apply negb_true_iff in E.
    now rewrite E. }
  unfold trim, trimEnd. rewrite (F s H), F, rev_involutive; [reflexivity|].
  rewrite forallb_forall in *. intros c Hin. apply H. now apply in_rev.
Qed.

Lemma wire_format_matches (s : jsstring) :
  matchesCanonical s = true -> matchesNotation s = true.
Proof.
  destruct s as [|f [|m [|x r]]]; simpl; try discriminate.
  - intros H. apply inClass_iff in H. vm_compute in H.
    repeat match type of H with _ \/ _ => destruct H as [H | H] end;
      try contradiction; subst; reflexivity.
  - intros H. apply andb_true_iff in H as [Hf Hm].
    apply inClass_iff in Hf, Hm. vm_compute in Hf, Hm.
    repeat match type of Hf with _ \/ _ => destruct Hf as [Hf | Hf] end;
      try contradiction;
      repeat match type of Hm with _ \/ _ => destruct Hm as [Hm | Hm] end;
      try contradiction; subst; reflexivity.
Qed.

Lemma wire_format_canonical (s : jsstring) :
  matchesCanonical s = true -> canonical s = s.
Proof.
  destruct s as [|f [|m [|x r]]]; simpl; try discriminate.
  - intros H. apply inClass_iff in H. vm_compute in H.
    repeat match type of H with _ \/ _ => destruct H as [H | H] end;
      try contradiction; subst; reflexivity.
  - intros H. apply andb_true_iff in H as [Hf _].
    apply inClass_iff in Hf. vm_compute in Hf.
    repeat match type of Hf with _ \/ _ => destruct Hf as [Hf | Hf] end;
      try contradiction; subst; reflexivity.
Qed.

Lemma getCubeNotation_unfold (s : jsstring) :
  getCubeNotation (JSString s) =
  if matchesNotation (trim s) then canonical (trim s) else trim s.
Proof.
  unfold getCubeNotation; cbv zeta.
  destruct (matchesNotation (trim s)); [|reflexivity].
  now destruct (trim s).
Qed.

(** X1: normalising twice is normalising once, for every string. *)
Theorem getCubeNotation_idempotent (s : jsstring) :
  getCubeNotation (JSString (getCubeNotation (JSString s))) =
  getCubeNotation (JSString s).
Proof.
  rewrite (getCubeNotation_unfold s).
  destruct (matchesNotation (trim s)) eqn:M.
  - pose proof (canonical_is_wire_format _ M) as W.
    pose proof (wire_format_matches _ W) as M'.
    rewrite getCubeNotation_unfold.
    rewrite (matching_token_is_trimmed _ M'), M'.
    now apply wire_format_canonical.
  - rewrite getCubeNotation_unfold, trim_idem, M. reflexivity.
Qed.

Lemma parse_accepts_wire_format (m : jsstring) :
  parseMoveNotation m <> None <-> matchesCanonical m = true.
Proof.
  rewrite <- matchMove_parse.
  destruct m as [|f [|x [|y r]]]; simpl; try (split; congruence).
  - assert (inClass "RLUDFB" f = inClass "URFDLB" f) as E.
    { unfold inClass; simpl.
      destruct (f =? 82)%N, (f =? 76)%N, (f =? 85)%N, (f =? 68)%N,
        (f =? 70)%N, (f =? 66)%N; reflexivity. }
    rewrite E. destruct (inClass "URFDLB" f); split; congruence.
  - assert (inClass "RLUDFB" f = inClass "URFDLB" f) as E.
    { unfold inClass; simpl.
      destruct (f =? 82)%N, (f =? 76)%N, (f =? 85)%N, (f =? 68)%N,
        (f =? 70)%N, (f =? 66)%N; reflexivity. }
    rewrite E. destruct (inClass "URFDLB" f && inClass "'2" x);
      split; congruence.
Qed.

Lemma normalised_accepted (s : jsstring) :
  parseMoveNotation (getCubeNotation (JSString s)) <> None <->
  matchesNotation (trim s) = true.
Proof.
  rewrite parse_accepts_wire_format, getCubeNotation_unfold.
  destruct (matchesNotation (trim s)) eqn:M.
  - split; [reflexivity|]. intros _. now apply canonical_is_wire_format.
  - split; [|discriminate]. intros W.
    apply wire_format_matches in W. congruence.
Qed.

(** X2: the engine's parser accepts the normaliser's result exactly when
    the trimmed input matches the notation pattern
    [^[URFDLBurfdlb][2']?$]; the result is then in the wire format
    [^[URFDLB]['2]?$], and it never carries surrounding white space. *)
Theorem normalised_token_accepted_iff_input_matches (s : jsstring) :
  (parseMoveNotation (getCubeNotation (JSString s)) <> None <->
   matchesNotation (trim s) = true) /\
  (matchesCanonical (getCubeNotation (JSString s)) = true <->
   matchesNotation (trim s) = true) /\
  trim (getCubeNotation (JSString s)) = getCubeNotation (JSString s).
Proof.
  split; [apply normalised_accepted|]. split.
  - rewrite <- parse_accepts_wire_format. apply normalised_accepted.
  - rewrite getCubeNotation_unfold.
    destruct (matchesNotation (trim s)) eqn:M.
    + apply matching_token_is_trimmed, wire_format_matches.
      now apply canonical_is_wire_format.
    + apply trim_idem.
Qed.

End TrimFacts.

(* ================================================================== *)
(** ** Further facts: the decoder *)
(* ================================================================== *)

Section SplitFacts.
Import JS CubeState Gan Cube3D Vocabulary.

(** The pieces, put end to end, are the code units that are no
    separators. *)
Lemma splitFrom_concat (s : jsstring) :
  (forall piece,
     List.concat (splitFrom false piece s)
     = rev piece ++ filter (fun c => negb (isSeparator c)) s) /\
  List.concat (splitFrom true [] s)
  = filter (fun c => negb (isSeparator c)) s.
Proof.
  induction s as [|c r [IHf IHt]]; simpl.
  - split; [intros piece; now rewrite !app_nil_r | reflexivity].
  - destruct (isSeparator c) eqn:C; simpl.
    + split; [intros piece; now rewrite IHt | exact IHt].
    + split.
      * intros piece. rewrite IHf. simpl. now rewrite <- app_assoc.
      * now rewrite IHf.
Qed.

(** No piece holds a separator. *)
Lemma splitFrom_pieces (s : jsstring) :
  (forall piece,
     forallb (fun c => negb (isSeparator c)) piece = true ->
     Forall (fun p => forallb (fun c => negb (isSeparator c)) p = true)
            (splitFrom false piece s)) /\
  Forall (fun p => forallb (fun c => negb (isSeparator c)) p = true)
         (splitFrom true [] s).
Proof.
  assert (forall piece,
            forallb (fun c => negb (isSeparator c)) piece = true ->
            forallb (fun c => negb (isSeparator c)) (rev piece) = true) as R.
  { intros piece H. rewrite forallb_forall in *. intros c Hin.
    apply H. now apply in_rev. }
  induction s as [|c r [IHf IHt]]; simpl.
  - split; [intros piece H; constructor; [now apply R | constructor]|].
    now repeat constructor.
  - destruct (isSeparator c) eqn:C; simpl.
    + split; [|exact IHt]. intros piece H. constructor; [now apply R|].
      exact IHt.
    + split.
      * intros piece H. apply IHf. simpl. now rewrite C, H.
      * apply IHf. simpl. now rewrite C.
Qed.

Lemma separator_of_white_space (c : N) :
  isWhiteSpace c = true -> isSeparator c = true.
Proof. unfold isSeparator. now intros ->. Qed.

Lemma piece_trimmed (p : jsstring) :
  forallb (fun c => negb (isSeparator c)) p = true -> trim p = p.
Proof.
  intros H. apply trim_without_white_space.
  rewrite forallb_forall in *. intros c Hin. specialize (H c Hin).
  destruct (isWhiteSpace c) eqn:W; [|reflexivity].
  now rewrite (separator_of_white_space c W) in H.
Qed.

Lemma map_fixed {A : Type} (f : A -> A) (l : list A) :
  Forall (fun x => f x = x) l -> map f l = l.
Proof. induction 1; simpl; congruence. Qed.

(** The tokens are the non-empty pieces of the trimmed text. *)
Lemma tokensOf_pieces (text : jsstring) :
  tokensOf text = filter truthy (split (trim text)).
Proof.
  unfold tokensOf. f_equal. apply map_fixed.
  eapply Forall_impl; [|apply (proj1 (splitFrom_pieces (trim text)) [])];
    [|reflexivity].
  intros p. apply piece_trimmed.
Qed.

Lemma concat_filter_truthy (l : list jsstring) :
  List.concat (filter truthy l) = List.concat l.
Proof.
  induction l as [|p r IH]; [reflexivity|]. simpl.
  destruct p; simpl; [exact IH | now rewrite IH].
Qed.

(** The tokens, put end to end, are the code units of the trimmed text
    that are no separators. *)
Lemma tokensOf_concat (text : jsstring) :
  List.concat (tokensOf text)
  = filter (fun c => negb (isSeparator c)) (trim text).
Proof.
  rewrite tokensOf_pieces, concat_filter_truthy.
  apply (proj1 (splitFrom_concat (trim text)) []).
Qed.

Lemma tokensOf_nonempty (text : jsstring) :
  Forall (fun t => truthy t = true) (tokensOf text).
Proof.
  rewrite tokensOf_pieces. apply Forall_forall. intros t Hin.
  now apply filter_In in Hin.
Qed.

(** The validity test of the text strategy, code unit by code unit. *)
Lemma tokens_valid_iff (text : jsstring) :
  forallb validToken (tokensOf text) = true <->
  forallb (fun c => isSeparator c || moveChar c) (trim text) = true.
Proof.
  rewrite !forallb_forall. split.
  - intros H c Hin. destruct (isSeparator c) eqn:C; [reflexivity|]. simpl.
    assert (In c (List.concat (tokensOf text))) as Hc.
    { rewrite tokensOf_concat. apply filter_In. now rewrite C. }
    apply in_concat in Hc as (t & Ht & Hct).
    specialize (H t Ht). unfold validToken in H.
    apply andb_true_iff in H as [_ H]. rewrite forallb_forall in H.
    now apply H.
  - intros H t Ht. unfold validToken.
    pose proof (proj1 (Forall_forall _ _) (tokensOf_nonempty text) t Ht) as E.
    simpl in E. rewrite E. simpl. apply forallb_forall. intros c Hc.
    assert (In c (List.concat (tokensOf text))) as Hin.
    { apply in_concat. now exists t. }
    rewrite tokensOf_concat in Hin. apply filter_In in Hin as [Hin N].
    specialize (H c Hin). apply negb_true_iff in N. now rewrite N in H.
Qed.

Lemma trim_nil : trim [] = [].
Proof. reflexivity. Qed.

Lemma textStrategy_unfold (dataView : list byte) :
  textStrategy dataView =
  match trim (textDecode dataView) with
  | [] => None
  | _ =>
      if forallb validToken (tokensOf (textDecode dataView))
      then Some (tokensOf (textDecode dataView)) else None
  end.
Proof.
  unfold textStrategy; cbv zeta.
  destruct (textDecode dataView) as [|c r] eqn:T.
  - reflexivity.
  - simpl truthy. cbv beta iota. rewrite andb_true_l.
    now destruct (trim (c :: r)).
Qed.

Lemma textStrategy_accepts (dataView : list byte) :
  textStrategy dataView <> None <->
  trim (textDecode dataView) <> [] /\
  forallb (fun c => isSeparator c || moveChar c)
          (trim (textDecode dataView)) = true.
Proof.
  rewrite textStrategy_unfold.
  destruct (trim (textDecode dataView)) as [|c r] eqn:T.
  - split; [congruence | intros [H _]; congruence].
  - rewrite <- T, <- tokens_valid_iff.
    destruct (forallb validToken (tokensOf (textDecode dataView)));
      split; try congruence; try (intros [_ H]; congruence).
    intros _. split; [rewrite T; discriminate | reflexivity].
Qed.

Lemma separator_is_no_move_char (a : N) :
  isSeparator a = true -> moveChar a = false.
Proof.
  intros S. apply not_true_iff_false. intros M.
  unfold moveChar in M. apply inClass_iff in M. vm_compute in M.
  repeat match type of M with _ \/ _ => destruct M as [M | M] end;
    try contradiction; subst a; discriminate S.
Qed.

Lemma textStrategy_tokens (dataView : list byte) (tokens : list jsstring) :
  textStrategy dataView = Some tokens ->
  Forall (fun t => t <> [] /\ forallb moveChar t = true) tokens /\
  List.concat tokens = filter moveChar (trim (textDecode dataView)).
Proof.
  rewrite textStrategy_unfold. intros H.
  destruct (trim (textDecode dataView)) as [|c r] eqn:T; [discriminate|].
  destruct (forallb validToken (tokensOf (textDecode dataView))) eqn:V;
    [|discriminate].
  injection H as <-. rewrite <- T. split.
  - apply Forall_forall. intros t Ht.
    rewrite forallb_forall in V. specialize (V t Ht).
    unfold validToken in V. apply andb_true_iff in V as [V1 V2].
    split; [now destruct t | exact V2].
  - rewrite tokensOf_concat. apply tokens_valid_iff in V.
    rewrite forallb_forall in V. apply filter_ext_in. intros a Ha.
    specialize (V a Ha). destruct (isSeparator a) eqn:S; simpl in *.
    + now rewrite (separator_is_no_move_char a S).
    + now rewrite V.
Qed.

(** X3: the text strategy takes a payload exactly when the trimmed text is
    not empty and each of its code units is white space, a comma, a
    semicolon or one of the move characters [URFDLBxyzMESurfdbxyz2']; the
    tokens it returns are then non-empty, hold no separator and, put end
    to end, are the move characters of the text in their order. *)
Theorem text_strategy_accepts_iff (dataView : list byte) :
  let text := textDecode dataView in
  (textStrategy dataView <> None <->
   trim text <> [] /\
   forallb (fun c => isSeparator c || moveChar c) (trim text) = true) /\
  (forall tokens,
     textStrategy dataView = Some tokens ->
     Forall (fun t => t <> [] /\ forallb moveChar t = true) tokens /\
     List.concat tokens = filter moveChar (trim text)).
Proof.
  cbv zeta. split.
  - apply textStrategy_accepts.
  - apply textStrategy_tokens.
Qed.

End SplitFacts.

Section DecoderPipelineFacts.
Import JS CubeState Gan Cube3D App Vocabulary.

Lemma text_strategy_accepts_iff_witness :
  List.concat [str "R"; str "U"; str "R'"]
  = filter moveChar (trim (textDecode (payload "R U R'"))).
Proof.
  apply (proj2 (text_strategy_accepts_iff (payload "R U R'"))
               [str "R"; str "U"; str "R'"]).
  reflexivity.
Defined.

(** Bytes below 0x80 decode to themselves. *)
Lemma utf8Run_ascii (bytes : list N) :
  Forall (fun b => (b < 0x80)%N) bytes ->
  utf8Run utf8Init bytes = bytes.
Proof.
  induction 1 as [|b rest Hb _ IH]; [reflexivity|].
  assert (utf8Byte utf8Init b = ([b], utf8Init)) as E.
  { unfold utf8Byte, utf8Lead, between. cbn [bytesNeeded utf8Init].
    rewrite N.eqb_refl.
    assert ((0 <=? b)%N = true) as -> by (apply N.leb_le; lia).
    assert ((b <=? 127)%N = true) as -> by (apply N.leb_le; lia).
    reflexivity. }
  cbn [utf8Run]. rewrite E. cbn [app]. now rewrite IH.
Qed.

Lemma textDecode_ascii (dataView : list byte) :
  Forall (fun b => (getUint8 b < 0x80)%N) dataView ->
  textDecode dataView = map getUint8 dataView.
Proof.
  intros H. unfold textDecode.
  assert (Forall (fun b => (b < 0x80)%N) (map getUint8 dataView)) as H'.
  { apply Forall_map. exact H. }
  rewrite (utf8Run_ascii _ H').
  assert (dropBOM (map getUint8 dataView) = map getUint8 dataView) as ->.
  { destruct H' as [|b rest Hb _]; [reflexivity|]. simpl.
    assert ((b =? 65279)%N = false) as -> by (apply N.eqb_neq; lia).
    reflexivity. }
  induction H' as [|b rest Hb _ IH]; [reflexivity|].
  simpl. unfold utf16 at 1.
  assert ((b <? 65536)%N = true) as -> by (apply N.ltb_lt; lia).
  simpl. now rewrite IH.
Qed.

Lemma table_entry_canonical (b : byte) :
  (getUint8 b < 12)%N -> matchesCanonical (idxToMoveAt (getUint8 b)) = true.
Proof.
  intros H. apply N.ltb_lt in H. revert H.
  destruct b; vm_compute; intros H; (reflexivity || discriminate H).
Qed.

Lemma nibbleByte_canonical (b : byte) :
  Forall (fun t => matchesCanonical t = true) (nibbleByte (getUint8 b)).
Proof. destruct b; vm_compute; repeat constructor. Qed.

Lemma binaryParse_canonical (dataView : list byte) :
  Forall (fun t => matchesCanonical t = true)
         (binaryParse (map getUint8 dataView)).
Proof.
  unfold binaryParse.
  destruct (_ && (nth 0 _ 0 <? 12)%N) eqn:E1.
  - apply andb_true_iff in E1 as [L E1]. apply N.ltb_lt in E1.
    destruct dataView as [|b rest]; [discriminate L|].
    constructor; [|constructor]. now apply table_entry_canonical.
  - destruct ((0 <? _)%nat && forallb _ _) eqn:E2.
    + apply andb_true_iff in E2 as [_ E2]. rewrite forallb_forall in E2.
      rewrite map_map. apply Forall_forall. intros t Ht.
      apply in_map_iff in Ht as (b & <- & Hb).
      apply table_entry_canonical. apply N.ltb_lt. apply E2.
      now apply in_map.
    + cbv zeta.
      assert (Forall (fun t => matchesCanonical t = true)
                     (nibbleMoves (map getUint8 dataView))) as F.
      { unfold nibbleMoves. apply Forall_forall. intros t Ht.
        apply in_flat_map in Ht as (n & Hn & Ht).
        apply in_map_iff in Hn as (b & <- & _).
        revert t Ht. apply Forall_forall. apply nibbleByte_canonical. }
      destruct (0 <? List.length (nibbleMoves _))%nat;
        [exact F | constructor].
Qed.

Lemma handleIncomingMove_canonical (t : jsstring) :
  matchesCanonical t = true -> handleIncomingMove t = t.
Proof.
  intros W. unfold handleIncomingMove; cbv zeta.
  pose proof (wire_format_matches _ W) as M.
  rewrite getCubeNotation_unfold, (matching_token_is_trimmed _ M), M.
  rewrite (wire_format_canonical _ W).
  destruct t; [discriminate W | reflexivity].
Qed.

(** X4: whatever the payload, a token that comes out of the binary
    strategies is in the wire format [^[URFDLB]['2]?$]; [handleIncomingMove]
    hands it on unchanged and [parseMoveNotation] accepts it. *)
Theorem binary_tokens_reach_the_engine (dataView : list byte) :
  textStrategy dataView = None ->
  Forall (fun t => matchesCanonical t = true /\
                   handleIncomingMove t = t /\
                   parseMoveNotation t <> None)
         (parseGanNotification dataView) /\
  onNotification dataView = parseGanNotification dataView.
Proof.
  intros T. unfold onNotification, parseGanNotification. rewrite T.
  pose proof (binaryParse_canonical dataView) as F. cbv zeta.
  assert (Forall (fun t => matchesCanonical t = true /\
                           handleIncomingMove t = t /\
                           parseMoveNotation t <> None)
                 (binaryParse (map getUint8 dataView))) as G.
  { eapply Forall_impl; [|exact F]. intros t W. split; [exact W|].
    split; [now apply handleIncomingMove_canonical|].
    now apply parse_accepts_wire_format. }
  split; [exact G|].
  destruct (binaryParse (map getUint8 dataView)) as [|t r] eqn:B;
    [reflexivity|].
  simpl Nat.ltb. cbv iota. apply map_fixed.
  eapply Forall_impl; [|exact G]. now intros a (_ & H & _).
Qed.

Lemma binary_tokens_reach_the_engine_witness :
  onNotification [x0c; x41] = parseGanNotification [x0c; x41].
Proof.
  apply (binary_tokens_reach_the_engine [x0c; x41]). reflexivity.
Defined.

Lemma separator_free (c : N) : moveChar c = true -> isSeparator c = false.
Proof.
  intros M. destruct (isSeparator c) eqn:S; [|reflexivity].
  rewrite (separator_is_no_move_char c S) in M. discriminate M.
Qed.

Lemma parsed_tokens_shape (dataView : list byte) :
  Forall (fun t => t <> [] /\ forallb moveChar t = true)
         (parseGanNotification dataView).
Proof.
  unfold parseGanNotification.
  destruct (textStrategy dataView) as [tokens|] eqn:T.
  - apply (textStrategy_tokens dataView tokens T).
  - eapply Forall_impl; [|apply binaryParse_canonical].
    intros t W. destruct t as [|f [|m [|x r]]]; simpl in W;
      try discriminate W.
    + split; [discriminate|]. apply inClass_iff in W. vm_compute in W.
      repeat match type of W with _ \/ _ => destruct W as [W | W] end;
        try contradiction; subst; reflexivity.
    + apply andb_true_iff in W as [Wf Wm]. split; [discriminate|].
      apply inClass_iff in Wf, Wm. vm_compute in Wf, Wm.
      repeat match type of Wf with _ \/ _ => destruct Wf as [Wf | Wf] end;
        try contradiction;
        repeat match type of Wm with _ \/ _ => destruct Wm as [Wm | Wm] end;
        try contradiction; subst; reflexivity.
Qed.

(** X5: every token the decoder returns, by whichever strategy, is a
    non-empty string of the move characters [URFDLBxyzMESurfdbxyz2']:
    no payload makes it return an empty token, one with white space or a
    separator, or one with any other character. *)
Theorem decoded_tokens_are_move_strings (dataView : list byte) :
  Forall (fun t => t <> [] /\ forallb moveChar t = true /\
                   forallb (fun c => negb (isSeparator c)) t = true /\
                   validToken t = true)
         (parseGanNotification dataView).
Proof.
  eapply Forall_impl; [|apply parsed_tokens_shape].
  intros t [Hn Hm]. split; [exact Hn|]. split; [exact Hm|]. split.
  - rewrite forallb_forall in *. intros c Hc.
    apply negb_true_iff. now apply separator_free, Hm.
  - change (validToken t) with (truthy t && forallb moveChar t).
    rewrite Hm. now destruct t.
Qed.

End DecoderPipelineFacts.

Section DecoderRoundTrip.
Import JS CubeState Gan Cube3D App Vocabulary.

(** Closes a goal that has [H : l <> l] among its hypotheses. *)
Ltac nil_absurd :=
  exfalso; match goal with H : ?a <> ?b |- _ => apply H; reflexivity end.

Lemma trim_incl (s : jsstring) (c : N) : In c (trim s) -> In c s.
Proof.
  assert (forall t x, In x (trimStart t) -> In x t) as S.
  { intros t x H. destruct (trimStart_split t) as (w & E & _).
    rewrite E. apply in_or_app. now right. }
  unfold trim, trimEnd. intros H. apply S.
  apply in_rev. apply S. now apply in_rev.
Qed.

(** The trimmed text, when not empty, starts with a code unit of the text
    that is not white space. *)
Lemma trim_head (s : jsstring) (c : N) (r : jsstring) :
  trim s = c :: r -> isWhiteSpace c = false /\ In c s.
Proof.
  intros E. split; [|apply trim_incl; rewrite E; now left].
  unfold trim in E.
  destruct (trimStart_head s) as [T | (c' & r' & T & C)]; rewrite T in E.
  - discriminate E.
  - destruct (trimEnd_keeps_head c' r' C) as (r'' & E').
    rewrite E' in E. now injection E as <- _.
Qed.

Lemma index_bytes_are_no_text (dataView : list byte) :
  Forall (fun b => (getUint8 b < 12)%N) dataView ->
  textStrategy dataView = None.
Proof.
  intros H. rewrite textStrategy_unfold.
  rewrite textDecode_ascii
    by (eapply Forall_impl; [|exact H]; cbv beta; intros; lia).
  destruct (trim (map getUint8 dataView)) as [|c r] eqn:T; [reflexivity|].
  destruct (forallb validToken (tokensOf (map getUint8 dataView))) eqn:V;
    [|reflexivity].
  exfalso. apply tokens_valid_iff in V. rewrite T in V. simpl in V.
  apply andb_true_iff in V as [V _].
  apply trim_head in T as [W Hin].
  apply in_map_iff in Hin as (b & <- & Hb).
  pose proof (proj1 (Forall_forall _ _) H b Hb) as L. cbv beta in L.
  apply N.ltb_lt in L. revert W V L. clear.
  destruct b; vm_compute; intros; discriminate.
Qed.

(** X6: a payload that is not empty and whose bytes are all below 12
    decodes byte by byte through the table [idxToMove]: one token for each
    byte, in the order of the bytes, never through the text strategy (not
    even for the bytes 9, 10 and 11, which are white space) and never
    through the nibble-packed one. *)
Theorem index_payload_decodes_bytewise (dataView : list byte) :
  dataView <> [] ->
  Forall (fun b => (getUint8 b < 12)%N) dataView ->
  parseGanNotification dataView
  = map (fun b => idxToMoveAt (getUint8 b)) dataView /\
  List.length (parseGanNotification dataView) = List.length dataView.
Proof.
  intros Hne H.
  assert (parseGanNotification dataView
          = map (fun b => idxToMoveAt (getUint8 b)) dataView) as E.
  { unfold parseGanNotification.
    rewrite (index_bytes_are_no_text _ H). unfold binaryParse.
    destruct dataView as [|b rest]; [nil_absurd|].
    assert (forallb (fun n => (n <? 12)%N) (map getUint8 (b :: rest)) = true)
      as A.
    { apply forallb_forall. intros n Hn.
      apply in_map_iff in Hn as (x & <- & Hx). apply N.ltb_lt.
      exact (proj1 (Forall_forall _ _) H x Hx). }
    rewrite A. cbn [map nth List.length Nat.ltb Nat.leb andb].
    destruct rest as [|b' rest'].
    - cbn. apply andb_true_iff in A as [-> _]. reflexivity.
    - cbn [List.length Nat.eqb andb]. now rewrite map_map. }
  split; [exact E|]. rewrite E. apply length_map.
Qed.

Lemma index_payload_decodes_bytewise_witness :
  parseGanNotification [x09; x0a; x00]
  = map (fun b => idxToMoveAt (getUint8 b)) [x09; x0a; x00].
Proof.
  apply (index_payload_decodes_bytewise [x09; x0a; x00]).
  - discriminate.
  - repeat constructor.
Defined.

Lemma moveChar_ascii (c : N) :
  moveChar c = true -> (c < 0x80)%N /\ isSeparator c = false.
Proof.
  unfold moveChar. intros H. apply inClass_iff in H. vm_compute in H.
  repeat match type of H with _ \/ _ => destruct H as [H | H] end;
    try contradiction; subst c; split; reflexivity.
Qed.

Lemma asBytes_getUint8 (s : jsstring) :
  Forall (fun c => (c < 0x80)%N) s -> map getUint8 (asBytes s) = s.
Proof.
  induction 1 as [|c r Hc _ IH]; [reflexivity|]. simpl. rewrite IH.
  f_equal. unfold getUint8. destruct (Byte.of_N c) as [b|] eqn:E.
  - now apply Byte.to_of_N.
  - apply Byte.of_N_None_iff in E. lia.
Qed.

Lemma splitFrom_token (t piece rest : jsstring) :
  forallb (fun c => negb (isSeparator c)) t = true ->
  splitFrom false piece (t ++ rest) = splitFrom false (rev t ++ piece) rest.
Proof.
  revert piece. induction t as [|c t' IH]; intros piece H; [reflexivity|].
  simpl in H. apply andb_true_iff in H as [C H].
  apply negb_true_iff in C. simpl. rewrite C, (IH _ H).
  now rewrite <- app_assoc.
Qed.

Lemma joinWith_head (sep : N) (t : jsstring) (rest : list jsstring) :
  t <> [] -> exists c r, joinWith sep (t :: rest) = c :: r /\ In c t.
Proof.
  intros Ht. destruct t as [|c t']; [nil_absurd|].
  destruct rest; simpl; eexists _, _; (split; [reflexivity | now left]).
Qed.

Lemma split_joinWith (sep : N) (tokens : list jsstring) :
  isSeparator sep = true ->
  tokens <> [] ->
  Forall (fun t => t <> [] /\ forallb moveChar t = true) tokens ->
  split (joinWith sep tokens) = tokens.
Proof.
  intros S Hne F. unfold split. revert Hne.
  induction F as [|t rest [Ht Hm] F IH]; intros Hne; [nil_absurd|].
  assert (forallb (fun c => negb (isSeparator c)) t = true) as Hs.
  { rewrite forallb_forall in *. intros c Hc.
    now rewrite (proj2 (moveChar_ascii c (Hm c Hc))). }
  destruct rest as [|t2 rest'].
  - simpl. rewrite <- (app_nil_r t) at 1. rewrite splitFrom_token by exact Hs.
    simpl. now rewrite app_nil_r, rev_involutive.
  - change (joinWith sep (t :: t2 :: rest'))
      with (t ++ sep :: joinWith sep (t2 :: rest')).
    rewrite splitFrom_token by exact Hs. cbn [splitFrom]. rewrite S.
    rewrite app_nil_r, rev_involutive. f_equal.
    etransitivity; [|apply IH; discriminate].
    pose proof (Forall_inv F) as [Ht2 Hm2].
    destruct (joinWith_head sep t2 rest' Ht2) as (c & r & E & Hc).
    unfold jsstring in *. rewrite E. simpl. rewrite forallb_forall in Hm2.
    now rewrite (proj2 (moveChar_ascii c (Hm2 c Hc))).
Qed.

Lemma joinWith_chars (sep : N) (tokens : list jsstring) (c : N) :
  In c (joinWith sep tokens) -> c = sep \/ exists t, In t tokens /\ In c t.
Proof.
  induction tokens as [|t rest IH]; [contradiction|].
  destruct rest as [|t2 rest'].
  - simpl. intros H. right. exists t. split; [now left | exact H].
  - change (joinWith sep (t :: t2 :: rest'))
      with (t ++ sep :: joinWith sep (t2 :: rest')).
    intros H. apply in_app_or in H as [H | [H | H]].
    + right. exists t. split; [now left | exact H].
    + now left.
    + destruct (IH H) as [E | (t' & Ht' & Hc)]; [now left|].
      right. exists t'. split; [now right | exact Hc].
Qed.

Lemma joinWith_last (sep : N) (tokens : list jsstring) :
  tokens <> [] ->
  Forall (fun t => t <> [] /\ forallb moveChar t = true) tokens ->
  exists c r, rev (joinWith sep tokens) = c :: r /\ moveChar c = true.
Proof.
  intros Hne F. revert Hne.
  induction F as [|t rest [Ht Hm] F IH]; intros Hne; [nil_absurd|].
  destruct rest as [|t2 rest'].
  - simpl. destruct (rev t) as [|c r] eqn:R.
    + apply (f_equal (@rev N)) in R. rewrite rev_involutive in R.
      simpl in R. subst t. nil_absurd.
    + exists c, r. split; [reflexivity|].
      rewrite forallb_forall in Hm. apply Hm. apply in_rev.
      rewrite R. now left.
  - change (joinWith sep (t :: t2 :: rest'))
      with (t ++ sep :: joinWith sep (t2 :: rest')).
    destruct IH as (c & r & E & M); [discriminate|].
    unfold jsstring in *.
    rewrite rev_app_distr. cbn [rev]. rewrite E. simpl.
    now exists c, ((r ++ [sep]) ++ rev t).
Qed.

(** X7: tokens written as text come back as they are.  Any non-empty list
    of non-empty tokens made of the move characters
    [URFDLBxyzMESurfdbxyz2'], sent as ASCII with one separator (a blank, a
    tab, a line end, a comma, a semicolon) between neighbours, decodes to
    exactly that list. *)
Theorem text_payload_round_trip (sep : N) (tokens : list jsstring) :
  isSeparator sep = true ->
  (sep < 0x80)%N ->
  tokens <> [] ->
  Forall (fun t => t <> [] /\ forallb moveChar t = true) tokens ->
  parseGanNotification (asBytes (joinWith sep tokens)) = tokens.
Proof.
  intros S A Hne F.
  assert (Forall (fun c => (c < 0x80)%N) (joinWith sep tokens)) as Hascii.
  { apply Forall_forall. intros c Hc.
    apply joinWith_chars in Hc as [-> | (t & Ht & Hc)]; [exact A|].
    pose proof (proj1 (Forall_forall _ _) F t Ht) as [_ Hm].
    rewrite forallb_forall in Hm. apply (moveChar_ascii c (Hm c Hc)). }
  assert (textDecode (asBytes (joinWith sep tokens)) = joinWith sep tokens)
    as D.
  { rewrite textDecode_ascii.
    - now apply asBytes_getUint8.
    - apply (proj1 (Forall_map getUint8 (fun c => (c < 0x80)%N)
                                (asBytes (joinWith sep tokens)))).
      now rewrite asBytes_getUint8. }
  assert (trim (joinWith sep tokens) = joinWith sep tokens) as T.
  { destruct tokens as [|t rest]; [nil_absurd|].
    pose proof (Forall_inv F) as [Ht Hm].
    destruct (joinWith_head sep t rest Ht) as (c & r & E & Hc).
    destruct (joinWith_last sep (t :: rest) Hne F) as (c' & r' & E' & M').
    rewrite forallb_forall in Hm.
    assert (isWhiteSpace c = false) as W.
    { pose proof (proj2 (moveChar_ascii c (Hm c Hc))) as N.
      unfold isSeparator in N. now apply orb_false_iff in N. }
    assert (isWhiteSpace c' = false) as W'.
    { pose proof (proj2 (moveChar_ascii c' M')) as N.
      unfold isSeparator in N. now apply orb_false_iff in N. }
    unfold jsstring in *.
    unfold trim, trimEnd. rewrite E, (trimStart_fixed c r W), <- E.
    rewrite E', (trimStart_fixed c' r' W'), <- E'. apply rev_involutive. }
  assert (tokensOf (joinWith sep tokens) = tokens) as K.
  { rewrite tokensOf_pieces, T, (split_joinWith sep tokens S Hne F).
    clear - F. induction F as [|t rest [Ht _] _ IH]; [reflexivity|].
    simpl. destruct t; [nil_absurd|]. simpl. now rewrite IH. }
  unfold parseGanNotification. rewrite textStrategy_unfold, D, T, K.
  assert (forallb validToken tokens = true) as V.
  { apply forallb_forall. intros t Ht.
    pose proof (proj1 (Forall_forall _ _) F t Ht) as [Hn Hm].
    change (validToken t) with (truthy t && forallb moveChar t).
    rewrite Hm. destruct t; [nil_absurd | reflexivity]. }
  rewrite V.
  destruct tokens as [|t rest]; [nil_absurd|].
  pose proof (Forall_inv F) as [Ht _].
  destruct (joinWith_head sep t rest Ht) as (c & r & E & _).
  unfold jsstring in *. now rewrite E.
Qed.

Lemma text_payload_round_trip_witness :
  parseGanNotification (asBytes (joinWith 44 [str "R2"; str "u'"; str "x"]))
  = [str "R2"; str "u'"; str "x"].
Proof.
  apply (text_payload_round_trip 44 [str "R2"; str "u'"; str "x"]).
  - reflexivity.
  - reflexivity.
  - discriminate.
  - repeat constructor; discriminate.
Defined.

End DecoderRoundTrip.

Section DecoderBound.
Import JS CubeState Gan Cube3D App Vocabulary.

Lemma utf8Lead_length (b : N) :
  (List.length (fst (utf8Lead b)) + owed (snd (utf8Lead b)) <= 1)%nat.
Proof.
  unfold utf8Lead, owed.
  destruct (between 0 127 b); [simpl; lia|].
  destruct (between 194 223 b); [simpl; lia|].
  destruct (between 224 239 b); [simpl; lia|].
  destruct (between 240 244 b); simpl; lia.
Qed.

Lemma utf8Byte_length (st : utf8) (b : N) :
  (List.length (fst (utf8Byte st b)) + owed (snd (utf8Byte st b))
   <= 1 + owed st)%nat.
Proof.
  unfold utf8Byte. pose proof (utf8Lead_length b) as L.
  destruct (bytesNeeded st =? 0)%N eqn:E; [lia|].
  assert (owed st = 1%nat) as -> by (unfold owed; now rewrite E).
  destruct (negb _).
  - destruct (utf8Lead b) as [out st']. simpl in *. lia.
  - cbv zeta. unfold owed.
    destruct (_ =? bytesNeeded st)%N; simpl; [lia|].
    rewrite E. simpl. lia.
Qed.

Lemma utf8Run_length (bytes : list N) (st : utf8) :
  (List.length (utf8Run st bytes) <= List.length bytes + owed st)%nat.
Proof.
  revert st. induction bytes as [|b rest IH]; intros st; simpl.
  - unfold owed. destruct (bytesNeeded st =? 0)%N; simpl; lia.
  - pose proof (utf8Byte_length st b) as L.
    destruct (utf8Byte st b) as [out st']. simpl in L.
    rewrite length_app. specialize (IH st'). lia.
Qed.

Lemma utf16_move_chars (cp : N) :
  (List.length (filter moveChar (utf16 cp)) <= 1)%nat.
Proof.
  unfold utf16. destruct (cp <? 65536)%N.
  - simpl. destruct (moveChar cp); simpl; lia.
  - assert (forall x, (0xD800 <= x)%N -> moveChar x = false) as H.
    { intros x Hx. destruct (moveChar x) eqn:M; [|reflexivity].
      apply moveChar_ascii in M. lia. }
    cbn [filter]. rewrite !H by lia. simpl. lia.
Qed.

Lemma move_chars_of_text (cps : list N) :
  (List.length (filter moveChar (flat_map utf16 cps)) <= List.length cps)%nat.
Proof.
  induction cps as [|cp rest IH]; [simpl; lia|]. simpl.
  rewrite filter_app, length_app. pose proof (utf16_move_chars cp). lia.
Qed.

Lemma dropBOM_length (cps : list N) :
  (List.length (dropBOM cps) <= List.length cps)%nat.
Proof.
  destruct cps as [|c r]; [simpl; lia|]. simpl.
  destruct (c =? 65279)%N; simpl; lia.
Qed.

Lemma trim_infix (s : jsstring) :
  exists before after, s = before ++ trim s ++ after.
Proof.
  destruct (trimStart_split s) as (w & E & _).
  destruct (trimStart_split (rev (trimStart s))) as (w' & E' & _).
  exists w, (rev w'). unfold trim, trimEnd.
  rewrite <- rev_app_distr, <- E', rev_involutive. exact E.
Qed.

Lemma nonempty_tokens_length (tokens : list jsstring) :
  Forall (fun t => t <> [] /\ forallb moveChar t = true) tokens ->
  (List.length tokens <= List.length (List.concat tokens))%nat.
Proof.
  induction 1 as [|t rest [Ht _] _ IH]; [simpl; lia|].
  simpl. rewrite length_app. destruct t; [congruence|]. simpl. lia.
Qed.

Lemma nibbleMoves_length (bytes : list N) :
  (List.length (nibbleMoves bytes) <= List.length bytes)%nat.
Proof.
  unfold nibbleMoves. induction bytes as [|b rest IH]; [simpl; lia|].
  simpl. rewrite length_app.
  assert (List.length (nibbleByte b) <= 1)%nat.
  { unfold nibbleByte. destruct (nth _ Gan.faceMap None); simpl; lia. }
  lia.
Qed.

(** X8: a notification never yields more tokens than it has bytes,
    whichever strategy decodes it; an empty one yields none. *)
Theorem at_most_one_token_per_byte (dataView : list byte) :
  (List.length (parseGanNotification dataView) <= List.length dataView)%nat.
Proof.
  unfold parseGanNotification.
  destruct (textStrategy dataView) as [tokens|] eqn:T.
  - destruct (textStrategy_tokens dataView tokens T) as [F C].
    pose proof (nonempty_tokens_length tokens F) as L1. rewrite C in L1.
    destruct (trim_infix (textDecode dataView)) as (w & w' & E).
    assert (List.length (filter moveChar (trim (textDecode dataView)))
            <= List.length (filter moveChar (textDecode dataView)))%nat as L2.
    { rewrite E at 2. rewrite !filter_app, !length_app. lia. }
    unfold textDecode in L2 at 2.
    pose proof (move_chars_of_text
                  (dropBOM (utf8Run utf8Init (map getUint8 dataView)))) as L3.
    pose proof (dropBOM_length (utf8Run utf8Init (map getUint8 dataView)))
      as L4.
    pose proof (utf8Run_length (map getUint8 dataView) utf8Init) as L5.
    rewrite length_map in L5. change (owed utf8Init) with 0%nat in L5. lia.
  - unfold binaryParse.
    destruct (_ && (nth 0 _ 0 <? 12)%N) eqn:E1.
    + apply andb_true_iff in E1 as [L _]. apply Nat.eqb_eq in L.
      rewrite length_map in L. simpl. lia.
    + destruct ((0 <? List.length (map getUint8 dataView))%nat && _).
      * rewrite !length_map. lia.
      * cbv zeta. pose proof (nibbleMoves_length (map getUint8 dataView)) as L.
        rewrite length_map in L.
        destruct (0 <? List.length (nibbleMoves _))%nat; simpl; lia.
Qed.

End DecoderBound.

(* ================================================================== *)
(** ** Further facts: the moves on the grid *)
(* ================================================================== *)

Section TurnFacts.
Import JS CubeState Gan Cube3D App Vocabulary.
Local Open Scope Z_scope.

Lemma animateMove_parsed (cs : list cubie) (m : jsstring) (mv : move) :
  parseMoveNotation m = Some mv ->
  animateMove cs m
  = Some (finalizePositions cs (moveAxis mv) (layer mv) (direction mv)).
Proof. unfold animateMove. now intros ->. Qed.

Lemma animateMove_rejected (cs : list cubie) (m : jsstring) :
  parseMoveNotation m = None -> animateMove cs m = None.
Proof. unfold animateMove. now intros ->. Qed.

(** The eighteen tokens of the wire format. *)
Lemma wire_format_tokens (m : jsstring) :
  matchesCanonical m = true ->
  exists f, inClass "URFDLB" f = true /\
            (m = [f] \/ m = [f; ch "'"] \/ m = [f; ch "2"]).
Proof.
  destruct m as [|f [|x [|y r]]]; simpl; try discriminate.
  - intros H. exists f. split; [exact H | now left].
  - intros H. apply andb_true_iff in H as [Hf Hx]. exists f.
    split; [exact Hf|]. apply inClass_iff in Hx. vm_compute in Hx.
    destruct Hx as [<- | [<- | []]]; [right; left | right; right];
      reflexivity.
Qed.

Lemma face_parses (f : N) :
  inClass "URFDLB" f = true ->
  exists ax lay,
    (lay = 1 \/ lay = -1) /\
    parseMoveNotation [f]
    = Some {| moveAxis := ax; direction := lay; layer := lay;
              duration := 300 |} /\
    parseMoveNotation [f; ch "'"]
    = Some {| moveAxis := ax; direction := - lay; layer := lay;
              duration := 300 |} /\
    parseMoveNotation [f; ch "2"]
    = Some {| moveAxis := ax; direction := lay; layer := lay;
              duration := 600 |}.
Proof.
  intros H. apply inClass_iff in H. vm_compute in H.
  repeat match type of H with _ \/ _ => destruct H as [H | H] end;
    try contradiction; subst f;
    eexists _, _; (split; [|repeat split]); try reflexivity;
    (now left) || (now right).
Qed.

(** X9: [parseMoveNotation] accepts exactly the tokens of the wire format
    [^[URFDLB]['2]?$]; what it returns always selects an outer layer (+1 or
    -1, never the middle one) and a direction +1 or -1, the plain token
    turning in the direction of the layer's sign and the primed one against
    it; the duration is 300 or 600. *)
Theorem parsed_moves_select_outer_layers (m : jsstring) :
  (parseMoveNotation m <> None <-> matchesCanonical m = true) /\
  (forall mv,
     parseMoveNotation m = Some mv ->
     (layer mv = 1 \/ layer mv = -1) /\
     (direction mv = layer mv \/ direction mv = - layer mv) /\
     (direction mv = - layer mv <-> exists f, m = [f; ch "'"]) /\
     (duration mv = 300 \/ duration mv = 600)).
Proof.
  split; [apply parse_accepts_wire_format|]. intros mv P.
  assert (matchesCanonical m = true) as W.
  { apply parse_accepts_wire_format. congruence. }
  destruct (wire_format_tokens m W) as (f & Hf & Hm).
  destruct (face_parses f Hf) as (ax & lay & Hl & P1 & P2 & P3).
  destruct Hm as [-> | [-> | ->]].
  - rewrite P1 in P. injection P as <-. simpl.
    repeat split; try tauto; try (intros (f' & E); discriminate E).
    intros E. lia.
  - rewrite P2 in P. injection P as <-. simpl.
    repeat split; try tauto. intros _. now exists f.
  - rewrite P3 in P. injection P as <-. simpl.
    repeat split; try tauto; try (intros (f' & E); discriminate E).
    intros E. lia.
Qed.

Lemma parsed_moves_select_outer_layers_witness :
  layer {| moveAxis := AxisX; direction := 1; layer := -1; duration := 300 |}
  = 1 \/
  layer {| moveAxis := AxisX; direction := 1; layer := -1; duration := 300 |}
  = -1.
Proof.
  apply (proj2 (parsed_moves_select_outer_layers (str "L'"))
               {| moveAxis := AxisX; direction := 1; layer := -1;
                  duration := 300 |}).
  reflexivity.
Defined.

Lemma update_stays_affected (c : cubie) (ax : axis) (lay dir : Z) :
  affected ax lay (updateCubiePosition c ax lay dir) = affected ax lay c.
Proof. unfold affected; simpl. now rewrite rotateGrid_keeps_axis. Qed.

Lemma rotateGrid_back (ax : axis) (dir dir' : Z) (g : vec3) :
  (dir >? 0) = negb (dir' >? 0) ->
  rotateGrid ax dir' (rotateGrid ax dir g) = g.
Proof.
  intros H. destruct g as [x y z], ax; unfold rotateGrid; simpl;
    rewrite H; destruct (dir' >? 0); simpl; apply vec3_eq; simpl; lia.
Qed.

Lemma rotateGrid_commutes (ax : axis) (dir dir' : Z) (g : vec3) :
  rotateGrid ax dir' (rotateGrid ax dir g)
  = rotateGrid ax dir (rotateGrid ax dir' g).
Proof.
  destruct g as [x y z], ax; unfold rotateGrid; simpl;
    destruct (dir >? 0), (dir' >? 0); apply vec3_eq; simpl; lia.
Qed.

Lemma rotateGrid_four (ax : axis) (dir : Z) (g : vec3) :
  rotateGrid ax dir (rotateGrid ax dir (rotateGrid ax dir (rotateGrid ax dir g)))
  = g.
Proof.
  destruct g as [x y z], ax; unfold rotateGrid; simpl;
    destruct (dir >? 0); apply vec3_eq; simpl; lia.
Qed.

Lemma cubie_at_rest (c : cubie) (g : vec3) :
  atRest c -> g = gridPosition c ->
  {| position := scale (cubeSize + spacing) g;
     originalPosition := scale (cubeSize + spacing) g;
     gridPosition := g; index := index c |} = c.
Proof.
  intros [P O] ->. destruct c as [p o g' i]; simpl in *. now subst.
Qed.

(** Two commits on the same layer, cubie by cubie. *)
Lemma finalizePositions_twice
  (cs : list cubie) (ax : axis) (lay d1 d2 : Z) :
  finalizePositions (finalizePositions cs ax lay d1) ax lay d2
  = map (fun c => if affected ax lay c
                  then updateCubiePosition
                         (updateCubiePosition c ax lay d1) ax lay d2
                  else c) cs.
Proof.
  unfold finalizePositions. rewrite map_map. apply map_ext. intros c.
  destruct (affected ax lay c) eqn:A.
  - now rewrite update_stays_affected, A.
  - now rewrite A.
Qed.

Lemma finalizePositions_back
  (cs : list cubie) (ax : axis) (lay d1 d2 : Z) :
  Forall atRest cs ->
  (d1 >? 0) = negb (d2 >? 0) ->
  finalizePositions (finalizePositions cs ax lay d1) ax lay d2 = cs.
Proof.
  intros R H. rewrite finalizePositions_twice. apply map_fixed.
  eapply Forall_impl; [|exact R]. intros c Rc.
  destruct (affected ax lay c); [|reflexivity].
  unfold updateCubiePosition; simpl. apply cubie_at_rest; [exact Rc|].
  now apply rotateGrid_back.
Qed.

Lemma finalizePositions_atRest (cs : list cubie) (ax : axis) (lay dir : Z) :
  Forall atRest cs -> Forall atRest (finalizePositions cs ax lay dir).
Proof.
  intros H. unfold finalizePositions. apply Forall_map.
  eapply Forall_impl; [|exact H]. intros c Hc.
  destruct (affected ax lay c); [split; reflexivity | assumption].
Qed.

Lemma finalizePositions_four (cs : list cubie) (ax : axis) (lay dir : Z) :
  Forall atRest cs ->
  finalizePositions
    (finalizePositions
       (finalizePositions (finalizePositions cs ax lay dir) ax lay dir)
       ax lay dir) ax lay dir = cs.
Proof.
  intros R. rewrite finalizePositions_twice.
  rewrite finalizePositions_twice, map_map. apply map_fixed.
  eapply Forall_impl; [|exact R]. intros c Rc.
  destruct (affected ax lay c) eqn:A; [|now rewrite A].
  rewrite !update_stays_affected, A.
  unfold updateCubiePosition; simpl. apply cubie_at_rest; [exact Rc|].
  apply rotateGrid_four.
Qed.

Lemma finalizePositions_three (cs : list cubie) (ax : axis) (lay d d' : Z) :
  Forall atRest cs ->
  (d >? 0) = negb (d' >? 0) ->
  finalizePositions
    (finalizePositions (finalizePositions cs ax lay d) ax lay d) ax lay d
  = finalizePositions cs ax lay d'.
Proof.
  intros R H.
  rewrite <- (finalizePositions_back
                (finalizePositions
                   (finalizePositions (finalizePositions cs ax lay d) ax lay d)
                   ax lay d) ax lay d d') at 1.
  - now rewrite finalizePositions_four.
  - now repeat apply finalizePositions_atRest.
  - exact H.
Qed.

(** X10: on cubies at rest, for each face letter [f]: the move [f]
    followed by [f'] leaves every cubie as it was, and so does [f']
    followed by [f]; four times [f] does too; three times [f] is [f']. *)
Theorem face_moves_form_a_cycle (f : N) (cs : list cubie) :
  inClass "URFDLB" f = true ->
  Forall atRest cs ->
  animateAll cs [[f]; [f; ch "'"]] = cs /\
  animateAll cs [[f; ch "'"]; [f]] = cs /\
  animateAll cs [[f]; [f]; [f]; [f]] = cs /\
  animateAll cs [[f]; [f]; [f]] = animateAll cs [[f; ch "'"]].
Proof.
  intros Hf R. destruct (face_parses f Hf) as (ax & lay & Hl & P1 & P2 & _).
  unfold animateAll. cbn [fold_left].
  rewrite !(animateMove_parsed _ _ _ P1), !(animateMove_parsed _ _ _ P2).
  cbn [moveAxis layer direction].
  repeat rewrite !(animateMove_parsed _ _ _ P1).
  repeat rewrite !(animateMove_parsed _ _ _ P2).
  cbn [moveAxis layer direction].
  assert ((lay >? 0) = negb (- lay >? 0)) as S1
    by (destruct Hl as [-> | ->]; reflexivity).
  assert ((- lay >? 0) = negb (lay >? 0)) as S2
    by (destruct Hl as [-> | ->]; reflexivity).
  repeat split.
  - now apply finalizePositions_back.
  - now apply finalizePositions_back.
  - now apply finalizePositions_four.
  - now apply finalizePositions_three.
Qed.

Lemma face_moves_form_a_cycle_witness :
  let f := ch "U" in
  let cs := [newCubie {| vx := 1; vy := 1; vz := -1 |} 0%nat;
             newCubie {| vx := 0; vy := -1; vz := 1 |} 1%nat] in
  animateAll cs [[f]; [f; ch "'"]] = cs /\
  animateAll cs [[f; ch "'"]; [f]] = cs /\
  animateAll cs [[f]; [f]; [f]; [f]] = cs /\
  animateAll cs [[f]; [f]; [f]] = animateAll cs [[f; ch "'"]].
Proof.
  intros f cs. apply (face_moves_form_a_cycle f cs).
  - reflexivity.
  - repeat constructor.
Defined.

End TurnFacts.

Section LayerFacts.
Import JS CubeState Gan Cube3D App Vocabulary.
Local Open Scope Z_scope.

(** X11: two moves about the same axis commute, whatever their layers and
    directions ([R] with [L], [U'] with [D2], [F] with [F'], ...), on any
    cubies. *)
Theorem same_axis_moves_commute
  (m1 m2 : jsstring) (mv1 mv2 : move) (cs : list cubie) :
  parseMoveNotation m1 = Some mv1 ->
  parseMoveNotation m2 = Some mv2 ->
  moveAxis mv1 = moveAxis mv2 ->
  animateAll cs [m1; m2] = animateAll cs [m2; m1].
Proof.
  intros P1 P2 A. unfold animateAll. cbn [fold_left].
  rewrite (animateMove_parsed _ _ _ P1), (animateMove_parsed _ _ _ P2).
  rewrite (animateMove_parsed _ _ _ P1), (animateMove_parsed _ _ _ P2).
  rewrite A. generalize (moveAxis mv2) as ax.
  generalize (layer mv1) as l1, (direction mv1) as d1,
    (layer mv2) as l2, (direction mv2) as d2.
  intros l1 d1 l2 d2 ax. unfold finalizePositions. rewrite !map_map.
  apply map_ext. intros c.
  assert (forall l l' d a, affected ax l (updateCubiePosition a ax l' d)
                           = affected ax l a) as K.
  { intros l l' d a. unfold affected; simpl.
    now rewrite rotateGrid_keeps_axis. }
  destruct (affected ax l1 c) eqn:A1, (affected ax l2 c) eqn:A2;
    rewrite ?K, ?A1, ?A2; try reflexivity.
  unfold updateCubiePosition; simpl. now rewrite rotateGrid_commutes.
Qed.

Lemma same_axis_moves_commute_witness :
  animateAll createCube [str "R"; str "L2"]
  = animateAll createCube [str "L2"; str "R"].
Proof.
  apply (same_axis_moves_commute (str "R") (str "L2")
           {| moveAxis := AxisX; direction := 1; layer := 1;
              duration := 300 |}
           {| moveAxis := AxisX; direction := -1; layer := -1;
              duration := 600 |} createCube);
    reflexivity.
Defined.

Lemma Permutation_filter_length {A : Type} (p : A -> bool) (l l' : list A) :
  Permutation l l' ->
  List.length (filter p l) = List.length (filter p l').
Proof.
  induction 1 as [|x l l' _ IH|x y l|l l' l'' _ IH1 _ IH2]; simpl.
  - reflexivity.
  - destruct (p x); simpl; now rewrite IH.
  - destruct (p x), (p y); reflexivity.
  - now rewrite IH1.
Qed.

Lemma gridLoop_NoDup : NoDup gridLoop.
Proof.
  apply (NoDup_map_inv gridRank).
  replace (map gridRank gridLoop) with (seq 0 27)
    by (vm_compute; reflexivity).
  apply seq_NoDup.
Qed.

Lemma gridLoop_inGrid (g : vec3) : In g gridLoop <-> inGrid g.
Proof.
  pose proof createCube_bijection as (_ & _ & H).
  replace (map gridPosition createCube) with gridLoop in H
    by (vm_compute; reflexivity).
  apply H.
Qed.

Lemma bijection_permutes_gridLoop (cs : list cubie) :
  gridBijection cs -> Permutation (map gridPosition cs) gridLoop.
Proof.
  intros (_ & Hnd & Hin).
  apply NoDup_Permutation; [exact Hnd | apply gridLoop_NoDup|].
  intros g. now rewrite Hin, gridLoop_inGrid.
Qed.

Lemma affected_count (cs : list cubie) (ax : axis) (lay : Z) :
  gridBijection cs ->
  lay = 1 \/ lay = -1 \/ lay = 0 ->
  List.length (getAffectedCubies cs ax lay) = 9%nat.
Proof.
  intros B Hl. unfold getAffectedCubies.
  assert (List.length (filter (affected ax lay) cs)
          = List.length (filter (fun g => coordOn ax g =? lay)
                                (map gridPosition cs))) as E.
  { clear. induction cs as [|c r IH]; [reflexivity|]. simpl.
    unfold affected at 1. destruct (coordOn ax (gridPosition c) =? lay);
      simpl; now rewrite IH. }
  rewrite E.
  rewrite (Permutation_filter_length _ _ _ (bijection_permutes_gridLoop cs B)).
  destruct ax, Hl as [-> | [-> | ->]]; reflexivity.
Qed.

(** X12: in every state the engine can reach, whatever came before, a
    move that [parseMoveNotation] accepts selects exactly 9 of the 27
    cubies; committing it changes those 9 (each keeps its coordinate on the
    axis of the move) and leaves the 18 others as they are. *)
Theorem accepted_move_turns_nine_cubies
  (history : list event) (m : jsstring) (mv : move) :
  parseMoveNotation m = Some mv ->
  let cs := cubies (run history) in
  let turned := finalizePositions cs (moveAxis mv) (layer mv) (direction mv) in
  animateMove cs m = Some turned /\
  List.length (getAffectedCubies cs (moveAxis mv) (layer mv)) = 9%nat /\
  List.length (filter (fun c => negb (affected (moveAxis mv) (layer mv) c)) cs)
  = 18%nat /\
  filter (fun c => negb (affected (moveAxis mv) (layer mv) c)) turned
  = filter (fun c => negb (affected (moveAxis mv) (layer mv) c)) cs /\
  getAffectedCubies turned (moveAxis mv) (layer mv)
  = map (fun c => updateCubiePosition c (moveAxis mv) (layer mv) (direction mv))
        (getAffectedCubies cs (moveAxis mv) (layer mv)).
Proof.
  intros P cs turned.
  pose proof (history_wellFormed history mounted mounted_wellFormed)
    as [B _]. fold (run history) in B. fold cs in B.
  assert (layer mv = 1 \/ layer mv = -1 \/ layer mv = 0) as Hl.
  { assert (matchesCanonical m = true) as W
      by (apply parse_accepts_wire_format; congruence).
    destruct (wire_format_tokens m W) as (f & Hf & Hm).
    destruct (face_parses f Hf) as (ax & lay & L & P1 & P2 & P3).
    destruct Hm as [-> | [-> | ->]];
      [rewrite P1 in P | rewrite P2 in P | rewrite P3 in P];
      injection P as <-; simpl; tauto. }
  pose proof (affected_count cs (moveAxis mv) (layer mv) B Hl) as N9.
  split; [now apply animateMove_parsed|]. split; [exact N9|].
  split; [|split].
  - pose proof (filter_length (affected (moveAxis mv) (layer mv)) cs) as L.
    unfold getAffectedCubies in N9. destruct B as (L27 & _).
    rewrite L27, N9 in L. lia.
  - unfold turned, finalizePositions. clear.
    induction cs as [|c r IH]; [reflexivity|]. simpl.
    destruct (affected (moveAxis mv) (layer mv) c) eqn:A.
    + rewrite update_stays_affected, A. simpl. exact IH.
    + rewrite A. simpl. now rewrite IH.
  - apply finalizePositions_affected.
Qed.

Lemma accepted_move_turns_nine_cubies_witness :
  List.length
    (getAffectedCubies
       (cubies (run [EvReady; EvMove (str "F"); EvSettle])) AxisY (-1))
  = 9%nat.
Proof.
  apply (accepted_move_turns_nine_cubies
           [EvReady; EvMove (str "F"); EvSettle] (str "D'")
           {| moveAxis := AxisY; direction := 1; layer := -1;
              duration := 300 |}).
  reflexivity.
Defined.

End LayerFacts.

(* ================================================================== *)
(** ** Further facts: the engine over its histories *)
(* ================================================================== *)

Section HistoryFacts.
Import JS CubeState Gan Cube3D App Vocabulary.
Local Open Scope Z_scope.

(** A property of the cubies that no step of the engine breaks holds after
    every history. *)
Lemma cubies_invariant (P : list cubie -> Prop) :
  P createCube ->
  (forall cs ax lay dir,
     lay = 1 \/ lay = -1 -> P cs -> P (finalizePositions cs ax lay dir)) ->
  (forall cs, P cs -> P (map resetCubie cs)) ->
  forall history, P (cubies (run history)).
Proof.
  intros P0 Pturn Preset history. unfold run.
  assert (P (cubies mounted)) as H by exact P0.
  revert H. generalize mounted as st.
  induction history as [|ev rest IH]; intros st H; [exact H|].
  simpl. apply IH. destruct ev as [|m| |]; simpl.
  - exact H.
  - now rewrite executeMove_cubies.
  - destruct (settle_cubies st) as [E | (m & cs & _ & A & E)]; rewrite E.
    + exact H.
    + unfold animateMove in A.
      destruct (parseMoveNotation m) as [mv|] eqn:Pm; [|discriminate].
      injection A as <-. apply Pturn; [|exact H].
      assert (matchesCanonical m = true) as W
        by (apply parse_accepts_wire_format; congruence).
      destruct (wire_format_tokens m W) as (f & Hf & Hm).
      destruct (face_parses f Hf) as (ax & lay & L & P1 & P2 & P3).
      destruct Hm as [-> | [-> | ->]];
        [rewrite P1 in Pm | rewrite P2 in Pm | rewrite P3 in Pm];
        injection Pm as <-; exact L.
  - now apply Preset.
Qed.

Lemma resetCubie_at_rest (c : cubie) : atRest c -> resetCubie c = c.
Proof.
  intros [P O]. destruct c as [p o g i]; simpl in *. subst p o.
  unfold resetCubie; simpl. unfold scale; simpl.
  rewrite !roundPitch_scale. now destruct g.
Qed.

Lemma history_at_rest (history : list event) :
  Forall atRest (cubies (run history)).
Proof.
  apply (cubies_invariant (Forall atRest)).
  - vm_compute. repeat constructor.
  - intros cs ax lay dir _. apply finalizePositions_atRest.
  - intros cs H. rewrite (map_fixed resetCubie cs); [exact H|].
    eapply Forall_impl; [|exact H]. apply resetCubie_at_rest.
Qed.

(** X13: after every history, each cubie's scene position and its stored
    [originalPosition] are both its grid coordinate times the pitch 1.05,
    and its [index] is still its place in the array: the array is never
    reordered and the scene never drifts from the grid. *)
Theorem scene_follows_the_grid (history : list event) :
  Forall atRest (cubies (run history)) /\
  map index (cubies (run history)) = seq 0 27.
Proof.
  split; [apply history_at_rest|].
  apply (cubies_invariant (fun cs => map index cs = seq 0 27)).
  - reflexivity.
  - intros cs ax lay dir _ H. rewrite <- H. unfold finalizePositions.
    rewrite map_map. apply map_ext. intros c.
    now destruct (affected ax lay c).
  - intros cs H. rewrite <- H. rewrite map_map. now apply map_ext.
Qed.


Lemma rotateGrid_norm2 (ax : axis) (dir : Z) (g : vec3) :
  norm2 (rotateGrid ax dir g) = norm2 g.
Proof.
  destruct g as [x y z], ax; unfold rotateGrid, norm2; simpl;
    destruct (dir >? 0); ring.
Qed.

Lemma rotateGrid_fixes_centres (ax : axis) (lay dir : Z) (g : vec3) :
  lay = 1 \/ lay = -1 ->
  coordOn ax g = lay -> norm2 g <= 1 -> rotateGrid ax dir g = g.
Proof.
  intros L C N. destruct g as [x y z]. unfold norm2 in N. simpl in N.
  destruct ax; simpl in C; subst;
    assert (forall a b, a * a + b * b <= 0 -> a = 0 /\ b = 0) as Z0
      by (intros a b; nia);
    unfold rotateGrid; simpl.
  - destruct (Z0 y z) as [-> ->]; [destruct L as [-> | ->]; lia|].
    now destruct (dir >? 0).
  - destruct (Z0 x z) as [-> ->]; [destruct L as [-> | ->]; lia|].
    now destruct (dir >? 0).
  - destruct (Z0 x y) as [-> ->]; [destruct L as [-> | ->]; lia|].
    now destruct (dir >? 0).
Qed.

Lemma Forall2_map_right {A B : Type} (Q : A -> B -> Prop) (R : B -> Prop)
  (f : B -> B) (l0 : list A) (l : list B) :
  (forall a b, R b -> Q a b -> Q a (f b)) ->
  Forall R l -> Forall2 Q l0 l -> Forall2 Q l0 (map f l).
Proof.
  intros H HR F. induction F as [|a b r0 r Hab _ IH]; [constructor|].
  simpl. constructor.
  - apply H; [exact (Forall_inv HR) | exact Hab].
  - apply IH. exact (Forall_inv_tail HR).
Qed.

Lemma Forall2_same {A : Type} (Q : A -> A -> Prop) (l : list A) :
  (forall a, Q a a) -> Forall2 Q l l.
Proof. intros H. induction l; constructor; auto. Qed.

(** X15: whatever the history, each cubie keeps its distance from the
    centre of the cube (a corner stays a corner, an edge an edge), and the
    seven cubies that start at the core or at the centre of a face (squared
    distance below 2) are still at their first grid coordinate. *)
Theorem cubies_keep_their_kind (history : list event) :
  Forall2 (fun c0 c =>
             index c = index c0 /\
             norm2 (gridPosition c) = norm2 (gridPosition c0) /\
             (2 <= norm2 (gridPosition c0) \/
              gridPosition c = gridPosition c0))
          createCube (cubies (run history)).
Proof.
  set (keeps := fun c0 c : cubie =>
             index c = index c0 /\
             norm2 (gridPosition c) = norm2 (gridPosition c0) /\
             (2 <= norm2 (gridPosition c0) \/
              gridPosition c = gridPosition c0)).
  apply (cubies_invariant
           (fun cs => Forall consistent cs /\ Forall2 keeps createCube cs)).
  - split; [apply createCube_consistent|].
    apply Forall2_same. intros c. repeat split. now right.
  - intros cs ax lay dir L [C K].
    split; [now apply finalizePositions_consistent|].
    unfold finalizePositions.
    apply (Forall2_map_right keeps (fun _ => True));
      [|now apply Forall_forall|exact K].
    intros c0 c _ (Ki & Kn & Kc).
    destruct (affected ax lay c) eqn:A; [|now repeat split].
    unfold keeps, updateCubiePosition; simpl.
    split; [exact Ki|]. split; [now rewrite rotateGrid_norm2|].
    destruct Kc as [Big | Same]; [now left|].
    destruct (Z_le_gt_dec 2 (norm2 (gridPosition c0))) as [Big | Small];
      [now left | right].
    rewrite <- Same.
    apply (rotateGrid_fixes_centres ax lay dir); [exact L| |lia].
    unfold affected in A. now apply Z.eqb_eq.
  - intros cs [C K]. split.
    + apply Forall_map. eapply Forall_impl; [|exact C].
      intros c. apply resetCubie_grid.
    + apply (Forall2_map_right keeps consistent); [|exact C|exact K].
      intros c0 c Hc (Ki & Kn & Kc).
      destruct (resetCubie_grid c Hc) as [E _].
      unfold keeps. rewrite E. now repeat split.
Qed.

End HistoryFacts.

Section QueueFacts.
Import JS CubeState Gan Cube3D App Vocabulary.

Lemma animateAll_cons (cs : list cubie) (m : jsstring) (ms : list jsstring) :
  animateAll cs (m :: ms)
  = animateAll (match animateMove cs m with
                | Some cs' => cs'
                | None => cs
                end) ms.
Proof. reflexivity. Qed.

Lemma rejected_cons (m : jsstring) (ms : list jsstring) :
  rejected (m :: ms)
  = match animateMove [] m with
    | Some _ => rejected ms
    | None => m :: rejected ms
    end.
Proof.
  unfold rejected, animateMove. simpl.
  now destruct (parseMoveNotation m).
Qed.

Lemma animateMove_none_iff (cs cs' : list cubie) (m : jsstring) :
  animateMove cs m = None <-> animateMove cs' m = None.
Proof.
  unfold animateMove. destruct (parseMoveNotation m); split; congruence.
Qed.

(** While a move is awaited, the settlements empty the queue in order. *)
Lemma settle_drains (q : list jsstring) :
  forall (st : engine) (m0 : jsstring),
    awaited st = Some m0 ->
    isReady st = true ->
    moveQueue st = q ->
    let st' := Nat.iter (S (List.length q)) settle st in
    cubies st' = animateAll (cubies st) (m0 :: q) /\
    errors st' = errors st ++ rejected (m0 :: q) /\
    completions st' = S (completions st) /\
    isReady st' = true /\ isAnimating st' = false /\
    awaited st' = None /\ moveQueue st' = [].
Proof.
  induction q as [|next rest IH]; intros st m0 A R Q; cbv zeta.
  - change (Nat.iter (S (List.length (@nil jsstring))) settle st)
      with (settle st).
    unfold settle. rewrite A, Q.
    rewrite animateAll_cons, rejected_cons. cbn [animateAll fold_left].
    destruct (animateMove (cubies st) m0) as [cs|] eqn:E.
    + destruct (animateMove [] m0) eqn:E0.
      * simpl. rewrite app_nil_r. repeat split. exact R.
      * apply (animateMove_none_iff [] (cubies st)) in E0. congruence.
    + apply (animateMove_none_iff (cubies st) []) in E. rewrite E.
      simpl. repeat split. exact R.
  - cbn [List.length]. rewrite Nat.iter_succ_r.
    assert (exists st1,
              settle st = st1 /\
              awaited st1 = Some next /\ isReady st1 = true /\
              moveQueue st1 = rest /\
              cubies st1 = match animateMove (cubies st) m0 with
                           | Some cs' => cs'
                           | None => cubies st
                           end /\
              errors st1 = errors st ++
                           match animateMove [] m0 with
                           | Some _ => []
                           | None => [m0]
                           end /\
              completions st1 = completions st) as (st1 & -> & A1 & R1 & Q1 & C1 & E1 & N1).
    { eexists. split; [reflexivity|]. unfold settle. rewrite A, Q.
      destruct (animateMove (cubies st) m0) as [cs|] eqn:E.
      - destruct (animateMove [] m0) eqn:E0.
        + unfold executeMove; simpl. rewrite R. simpl.
          rewrite app_nil_r. now repeat split.
        + apply (animateMove_none_iff [] (cubies st)) in E0. congruence.
      - apply (animateMove_none_iff (cubies st) []) in E. rewrite E.
        unfold executeMove; simpl. rewrite R. simpl. now repeat split. }
    destruct (IH st1 next A1 R1 Q1) as (Hc & He & Hn & Hr & Ha & Hw & Hq).
    rewrite animateAll_cons, <- C1, rejected_cons.
    split; [exact Hc|]. split.
    + rewrite He, E1, <- app_assoc. f_equal.
      now destruct (animateMove [] m0).
    + split; [congruence|]. now repeat split.
Qed.

Lemma executeAll_busy (ms : list jsstring) :
  forall st : engine,
    isAnimating st = true ->
    awaited (executeAll ms st) = awaited st /\
    isReady (executeAll ms st) = isReady st /\
    moveQueue (executeAll ms st) = moveQueue st ++ ms /\
    cubies (executeAll ms st) = cubies st /\
    errors (executeAll ms st) = errors st /\
    completions (executeAll ms st) = completions st.
Proof.
  induction ms as [|m rest IH]; intros st B.
  - simpl. rewrite app_nil_r. now repeat split.
  - change (executeAll (m :: rest) st)
      with (executeAll rest (executeMove m st)).
    assert (executeMove m st
            = {| cubies := cubies st; isAnimating := isAnimating st;
                 moveQueue := moveQueue st ++ [m]; isReady := isReady st;
                 awaited := awaited st; errors := errors st;
                 completions := completions st |}) as E.
    { unfold executeMove. now rewrite B. }
    destruct (IH (executeMove m st)) as (H1 & H2 & H3 & H4 & H5 & H6);
      [rewrite E; exact B|].
    rewrite H1, H2, H3, H4, H5, H6, E. simpl. rewrite <- app_assoc.
    now repeat split.
Qed.

(** X16: moves run first in, first out and one at a time.  When an idle,
    ready engine gets a burst of moves in one go and then as many promise
    settlements as there are moves, the cubies are those of the moves
    animated one after the other in the order given, each exactly once;
    the moves the parser rejects are reported in order and change nothing;
    the completion callback is called once, at the very end; and the
    engine is idle again. *)
Theorem burst_is_run_in_order (ms : list jsstring) (st : engine) :
  idle st ->
  ms <> [] ->
  let st' := Nat.iter (List.length ms) settle (executeAll ms st) in
  cubies st' = animateAll (cubies st) ms /\
  errors st' = errors st ++ rejected ms /\
  completions st' = S (completions st) /\
  idle st'.
Proof.
  intros (R & B & A & Q) Hne. destruct ms as [|m0 q]; [congruence|].
  cbv zeta.
  change (executeAll (m0 :: q) st) with (executeAll q (executeMove m0 st)).
  assert (executeMove m0 st
          = {| cubies := cubies st; isAnimating := true;
               moveQueue := moveQueue st; isReady := isReady st;
               awaited := Some m0; errors := errors st;
               completions := completions st |}) as E.
  { unfold executeMove. now rewrite B, R. }
  remember (executeMove m0 st) as st1 eqn:E1. clear E1.
  assert (isAnimating st1 = true /\ awaited st1 = Some m0 /\
          isReady st1 = true /\ moveQueue st1 = [] /\
          cubies st1 = cubies st /\ errors st1 = errors st /\
          completions st1 = completions st)
    as (S0 & S1 & S2 & S3 & S4 & S5 & S6).
  { subst st1. simpl. now repeat split. }
  destruct (executeAll_busy q st1 S0) as (H1 & H2 & H3 & H4 & H5 & H6).
  rewrite S3 in H3. simpl in H3.
  destruct (settle_drains q _ m0 (eq_trans H1 S1) (eq_trans H2 S2) H3)
    as (Hc & He & Hn & Hr & Ha & Hw & Hq).
  cbn [List.length]. rewrite Hc, He, Hn, H4, H5, H6, S4, S5, S6.
  repeat split; assumption.
Qed.

Lemma burst_is_run_in_order_witness :
  let ms := [str "R"; str "X"; str "U'"] in
  let st := {| cubies := [newCubie {| vx := 1; vy := 1; vz := -1 |} 0%nat];
               isAnimating := false; moveQueue := []; isReady := true;
               awaited := None; errors := []; completions := 0 |} in
  let st' := Nat.iter (List.length ms) settle (executeAll ms st) in
  cubies st' = animateAll (cubies st) ms /\
  errors st' = errors st ++ rejected ms /\
  completions st' = S (completions st) /\
  idle st'.
Proof.
  intros ms st. apply (burst_is_run_in_order ms st).
  - repeat split.
  - discriminate.
Defined.

End QueueFacts.

(* ================================================================== *)
(** ** Further facts: from the notification and the keyboard to the cube *)
(* ================================================================== *)

Section AppFacts.
Import JS CubeState Gan Cube3D App Vocabulary.

Lemma handleIncomingMove_token (t : jsstring) :
  t <> [] -> forallb moveChar t = true ->
  handleIncomingMove t = (if matchesNotation t then canonical t else t) /\
  (parseMoveNotation (handleIncomingMove t) <> None <->
   matchesNotation t = true).
Proof.
  intros Hn Hm.
  assert (trim t = t) as T.
  { apply piece_trimmed. rewrite forallb_forall in *. intros c Hc.
    apply negb_true_iff. now apply separator_free, Hm. }
  assert (handleIncomingMove t = getCubeNotation (JSString t)) as E.
  { unfold handleIncomingMove; cbv zeta.
    rewrite getCubeNotation_unfold, T.
    destruct (matchesNotation t).
    - destruct t; [now contradiction Hn | reflexivity].
    - destruct t; [now contradiction Hn | reflexivity]. }
  split.
  - now rewrite E, getCubeNotation_unfold, T.
  - rewrite E, normalised_accepted, T. reflexivity.
Qed.

(** X17: for one notification, [handleIncomingMove] is called once for each
    decoded token, in order.  The notation it computes is the token with
    its face in upper case when the token matches
    [^[URFDLBurfdlb][2']?$], and the token itself otherwise;
    [parseMoveNotation] accepts the notation exactly in the first case, so
    every other decoded token (such as [x], [M] or [RU]) is passed on as a
    notation that the engine's parser rejects. *)
Theorem notification_to_notations (value : list byte) :
  onNotification value = map handleIncomingMove (parseGanNotification value) /\
  Forall2 (fun t notation =>
             notation = (if matchesNotation t then canonical t else t) /\
             (parseMoveNotation notation <> None <->
              matchesNotation t = true))
          (parseGanNotification value) (onNotification value).
Proof.
  assert (onNotification value
          = map handleIncomingMove (parseGanNotification value)) as E.
  { unfold onNotification; cbv zeta.
    now destruct (parseGanNotification value). }
  split; [exact E|]. rewrite E. clear E.
  pose proof (parsed_tokens_shape value) as F.
  induction F as [|t rest [Hn Hm] _ IH]; simpl; [constructor|].
  constructor; [now apply handleIncomingMove_token | exact IH].
Qed.





End AppFacts.

Section FifoFacts.
Import JS CubeState Gan Cube3D App Vocabulary.

Lemma animateAll_app (cs : list cubie) (ms ms' : list jsstring) :
  animateAll cs (ms ++ ms') = animateAll (animateAll cs ms) ms'.
Proof. unfold animateAll. apply fold_left_app. Qed.

Lemma rejected_app (ms ms' : list jsstring) :
  rejected (ms ++ ms') = rejected ms ++ rejected ms'.
Proof. unfold rejected. apply filter_app. Qed.

Lemma animateAll_nil (cs : list cubie) : cs = animateAll cs [].
Proof. reflexivity. Qed.

Lemma animateAll_atRest (ms : list jsstring) (cs : list cubie) :
  Forall atRest cs -> Forall atRest (animateAll cs ms).
Proof.
  revert cs. induction ms as [|m rest IH]; intros cs R; [exact R|].
  rewrite animateAll_cons. apply IH. unfold animateMove.
  destruct (parseMoveNotation m); [|exact R].
  now apply finalizePositions_atRest.
Qed.

(** Closes the routine components of [inStep]. *)
Ltac routine :=
  first [ reflexivity | assumption | discriminate
        | split; intros; first [reflexivity | assumption | discriminate
                               | congruence]
        | intros; congruence ].

Lemma executeMove_inStep (cs0 : list cubie) (st : engine) (m : jsstring)
  (settled given : list jsstring) :
  inStep cs0 st settled given ->
  inStep cs0 (executeMove m st) settled (given ++ [m]).
Proof.
  intros (R & B & Q & G & C & E). unfold inStep, underWay in *.
  unfold executeMove. rewrite R. cbn [negb]. rewrite orb_false_r.
  destruct (isAnimating st) eqn:A; cbn.
  - destruct (awaited st) as [a|] eqn:W.
    + split; [routine|]. split; [routine|]. split; [routine|].
      split; [|split; routine].
      rewrite G. cbn. now rewrite <- app_assoc.
    + exfalso. now apply (proj1 B eq_refl).
  - destruct (awaited st) as [a|] eqn:W.
    + exfalso. assert (false = true) as X by (apply B; discriminate).
      discriminate X.
    + rewrite (Q eq_refl) in *. cbn in G. rewrite app_nil_r in G.
      split; [routine|]. split; [routine|]. split; [routine|].
      split; [|split; routine].
      now rewrite G.
Qed.

Lemma settle_inStep (cs0 : list cubie) (st : engine)
  (settled given : list jsstring) :
  inStep cs0 st settled given ->
  inStep cs0 (settle st) (settled ++ underWay st) given.
Proof.
  intros (R & B & Q & G & C & E). unfold inStep, underWay in *.
  unfold settle. destruct (awaited st) as [a|] eqn:W.
  - assert (animateAll cs0 (settled ++ [a])
            = match animateMove (cubies st) a with
              | Some cs => cs
              | None => cubies st
              end) as C'.
    { rewrite animateAll_app, <- C. reflexivity. }
    assert (rejected (settled ++ [a])
            = match animateMove (cubies st) a with
              | Some _ => errors st
              | None => errors st ++ [a]
              end) as E'.
    { rewrite rejected_app, <- E. unfold rejected, animateMove. cbn.
      destruct (parseMoveNotation a); [apply app_nil_r | reflexivity]. }
    rewrite C', E'. clear C' E'.
    destruct (moveQueue st) as [|next rest] eqn:Qs.
    + destruct (animateMove (cubies st) a); cbn;
        (split; [routine|]); (split; [routine|]);
        (split; [routine|]); (split; [|split; routine]);
        rewrite G; cbn; now rewrite app_nil_r.
    + unfold executeMove.
      destruct (animateMove (cubies st) a); cbn; rewrite R; cbn;
        (split; [routine|]); (split; [routine|]);
        (split; [routine|]); (split; [|split; routine]);
        rewrite G; cbn; now rewrite <- app_assoc.
  - rewrite app_nil_r, W.
    split; [routine|]. split; [exact B|]. split; [exact Q|].
    split; [exact G|]. split; routine.
Qed.

Lemma resetCube_inStep (cs0 : list cubie) (st : engine)
  (settled given : list jsstring) :
  Forall atRest cs0 ->
  inStep cs0 st settled given ->
  inStep cs0 (resetCube st) settled given.
Proof.
  intros R0 (R & B & Q & G & C & E). unfold inStep, underWay in *.
  unfold resetCube. cbn.
  assert (map resetCubie (cubies st) = cubies st) as F.
  { apply map_fixed. rewrite C.
    eapply Forall_impl; [apply resetCubie_at_rest|].
    now apply animateAll_atRest. }
  rewrite F.
  split; [exact R|]. split; [exact B|]. split; [exact Q|].
  split; [exact G|]. split; [exact C | exact E].
Qed.

Lemma history_inStep (cs0 : list cubie) (history : list event) :
  Forall atRest cs0 ->
  forall (st : engine) (settled given : list jsstring),
    inStep cs0 st settled given ->
    inStep cs0 (fold_left step history st)
           (settled ++ settledFrom st history) (given ++ handed history).
Proof.
  intros R0. induction history as [|ev rest IH]; intros st settled given H.
  - cbn. now rewrite !app_nil_r.
  - cbn [fold_left].
    assert (inStep cs0 (step st ev)
              (settled ++ match ev with
                          | EvSettle => underWay st
                          | _ => []
                          end)
              (given ++ match ev with
                        | EvMove m => [m]
                        | _ => []
                        end)) as H1.
    { destruct ev as [|m| |]; cbn [step]; rewrite ?app_nil_r.
      - destruct H as (R & B & Q & G & C & E).
        unfold inStep, underWay in *. cbn.
        split; [reflexivity|]. split; [exact B|]. split; [exact Q|].
        split; [exact G|]. split; [exact C | exact E].
      - now apply executeMove_inStep.
      - now apply settle_inStep.
      - now apply resetCube_inStep. }
    specialize (IH _ _ _ H1).
    replace (settled ++ settledFrom st (ev :: rest))
      with ((settled ++ match ev with
                        | EvSettle => underWay st
                        | _ => []
                        end) ++ settledFrom (step st ev) rest).
    + replace (given ++ handed (ev :: rest))
        with ((given ++ match ev with
                        | EvMove m => [m]
                        | _ => []
                        end) ++ handed rest); [exact IH|].
      rewrite <- app_assoc. reflexivity.
    + rewrite <- app_assoc. f_equal. unfold underWay.
      destruct ev; try reflexivity. cbn [settledFrom].
      now destruct (awaited st).
Qed.

(** X19: every move handed to a ready engine is committed exactly once and
    in the order of arrival, however the calls of [executeMove], the
    promise settlements and the resets interleave.  After any history that
    follows [setIsReady(true)]: the moves handed over are the settled ones,
    then the awaited one, then the queue; the cubies are those of the
    settled moves committed in that order on the new cube; the errors are
    the settled moves the parser rejects; the busy flag is up exactly while
    a move is awaited, and nothing waits in the queue of an idle engine. *)
Theorem moves_are_committed_in_arrival_order (history : list event) :
  let st := run (EvReady :: history) in
  let settled := settledFrom (setReady mounted) history in
  handed history = settled ++ underWay st ++ moveQueue st /\
  cubies st = animateAll createCube settled /\
  errors st = rejected settled /\
  (isAnimating st = true <-> awaited st <> None) /\
  (awaited st <> None \/ moveQueue st = []).
Proof.
  cbv zeta.
  assert (inStep createCube (setReady mounted) [] []) as H0.
  { unfold inStep, underWay, setReady, mounted.
    cbn [isReady isAnimating awaited moveQueue cubies errors app].
    split; [reflexivity|].
    split; [split; [discriminate | intros X; now contradiction X]|].
    split; [reflexivity|]. split; [reflexivity|].
    split; [apply animateAll_nil | reflexivity]. }
  assert (Forall atRest createCube) as R0.
  { vm_compute. repeat constructor. }
  pose proof (history_inStep createCube history R0 _ _ _ H0)
    as (R & B & Q & G & C & E).
  cbn [app] in G, C, E.
  change (run (EvReady :: history))
    with (fold_left step history (setReady mounted)).
  split; [exact G|]. split; [exact C|]. split; [exact E|].
  split; [exact B|].
  destruct (awaited (fold_left step history (setReady mounted))) as [a|];
    [left; discriminate | right; now apply Q].
Qed.

End FifoFacts.
